(** * ClatShield 1.00: password generator and strength estimators

    A shallow embedding of [ClatShield(1.00).py] and the properties its
    specification states about it.

    - a Python [str] is a [string]; its characters are the code points
      below 256 ([ascii]);
    - a Python [int] is a [Z], a [len] is a [nat];
    - a Python list of characters is a [list ascii], read with [!!] and
      written with [<[_:=_]>];
    - the [secrets] random source is a stream of raw draws [rnd : nat -> nat]
      together with the number of draws consumed so far;
    - exceptions and the unbounded [while] loop are outcomes of a small
      monad;
    - a Python [float] is a parameter of [calculate_entropy], together with
      the operations on it; [binary64_entropy] instantiates it with the
      binary64 floats of the Standard Library, [math.log2] remaining a
      parameter. *)

From Stdlib Require Import Reals Lra.
From Stdlib Require Import ZArith Ascii String Lia.
From Stdlib Require Import Floats Uint63.
From stdpp Require Import base list strings.

(** ** Python built-ins used by the program *)

Module Py.

(** [str.isspace] of one character, for the code points below 256. *)
Definition is_space (c : ascii) : bool :=
  let n := nat_of_ascii c in
  ((9 <=? n) && (n <=? 13)) || ((28 <=? n) && (n <=? 32))
  || (n =? 133) || (n =? 160).

(** [str.lower] of one character, for the code points below 256. *)
Definition lower_char (c : ascii) : ascii :=
  let n := nat_of_ascii c in
  if ((65 <=? n) && (n <=? 90))
     || ((192 <=? n) && (n <=? 222) && negb (n =? 215))
  then ascii_of_nat (n + 32) else c.

Fixpoint lower (s : string) : string :=
  match s with
  | EmptyString => EmptyString
  | String c s' => String (lower_char c) (lower s')
  end.

Fixpoint lstrip (s : string) : string :=
  match s with
  | EmptyString => EmptyString
  | String c s' => if is_space c then lstrip s' else s
  end.

Fixpoint rstrip (s : string) : string :=
  match s with
  | EmptyString => EmptyString
  | String c s' =>
      match rstrip s' with
      | EmptyString => if is_space c then EmptyString else String c EmptyString
      | r => String c r
      end
  end.

(** [s.strip()] *)
Definition strip (s : string) : string := rstrip (lstrip s).

(** [x in xs] for a list of strings *)
Definition contains (xs : list string) (x : string) : bool :=
  existsb (String.eqb x) xs.

(** [string.ascii_lowercase], [string.ascii_uppercase], [string.digits] *)
Definition ascii_lowercase : string := "abcdefghijklmnopqrstuvwxyz".
Definition ascii_uppercase : string := "ABCDEFGHIJKLMNOPQRSTUVWXYZ".
Definition digits : string := "0123456789".

End Py.

(** ** [get_bool_input]

    [line] is what [input(prompt)] returned. *)

Definition get_bool_input (line : string) (default : bool) : bool :=
  let answer := Py.lower (Py.strip line) in
  if Py.contains ["y"; "yes"] answer then true
  else if Py.contains ["n"; "no"] answer then false
  else default.

(** The five yes/no prompts of one iteration of [main], in the order they
    are asked. *)
Record Flags := mkFlags {
  include_lower : bool;
  include_upper : bool;
  include_digits : bool;
  include_special : bool;
  flag_require_each : bool
}.

Definition main_read_flags (l1 l2 l3 l4 l5 : string) : Flags :=
  {| include_lower := get_bool_input l1 true;
     include_upper := get_bool_input l2 true;
     include_digits := get_bool_input l3 true;
     include_special := get_bool_input l4 true;
     flag_require_each := get_bool_input l5 false |}.

(** A yes-answer is [y] or [yes], a no-answer is [n] or [no], in any
    letter case and surrounded by any white space. *)
Definition yes_answer (line : string) : Prop :=
  Py.lower (Py.strip line) = "y" \/ Py.lower (Py.strip line) = "yes".

Definition no_answer (line : string) : Prop :=
  Py.lower (Py.strip line) = "n" \/ Py.lower (Py.strip line) = "no".

(** ** [calculate_search_space_size] *)

Definition calculate_search_space_size (length : Z) (all_chars : string) : Z :=
  if (match all_chars with EmptyString => true | _ => false end
      || (length <=? 0)%Z)
  then 0%Z
  else (Z.of_nat (String.length all_chars) ^ length)%Z.

(** ** [calculate_entropy] *)

(** The dictionary [freq] keeps its keys in the order they were inserted
    in, which is the order [freq.items()] visits them in. *)
Fixpoint dict_get (freq : list (ascii * Z)) (key : ascii) (default : Z) : Z :=
  match freq with
  | [] => default
  | (k, v) :: freq' =>
      if Ascii.eqb key k then v else dict_get freq' key default
  end.

Fixpoint dict_set (freq : list (ascii * Z)) (key : ascii) (value : Z)
  : list (ascii * Z) :=
  match freq with
  | [] => [(key, value)]
  | (k, v) :: freq' =>
      if Ascii.eqb key k then (k, value) :: freq'
      else (k, v) :: dict_set freq' key value
  end.

(** Lines 25-27: [freq[char] = freq.get(char, 0) + 1] for every character. *)
Definition count_chars (password : string) : list (ascii * Z) :=
  fold_left
    (fun freq char => dict_set freq char (dict_get freq char 0 + 1)%Z)
    (list_ascii_of_string password) [].

Section Entropy.

(** Python's [float] with [0.0], the true division of two [int]s, the
    product, the difference and [math.log2]. *)
Variable float : Type.
Variable zero : float.
Variable true_div : Z -> Z -> float.
Variable mul sub : float -> float -> float.
Variable log2 : float -> float.

(** Lines 30-31: [p = count / length; entropy -= p * math.log2(p)] *)
Definition entropy_step (length : Z) (entropy : float) (item : ascii * Z)
  : float :=
  let p := true_div (snd item) length in
  sub entropy (mul p (log2 p)).

Definition calculate_entropy (password : string) : float :=
  match password with
  | EmptyString => zero
  | _ =>
      let length := Z.of_nat (String.length password) in
      let freq := count_chars password in
      fold_left (entropy_step length) freq zero
  end.

End Entropy.

(** [calculate_entropy] in exact real arithmetic. *)
Definition exact_entropy (password : string) : R :=
  calculate_entropy R 0%R (fun a b => (IZR a / IZR b)%R) Rmult Rminus
    (Rlog 2) password.

(** *** On binary64 floats *)

(** [float(n)] for an [int] from 0 to 2^63 - 1; exact up to 2^53. *)
Definition float_of_int (n : Z) : float :=
  PrimFloat.of_uint63 (Uint63.of_Z n).

(** [a / b] for two [int]s that a float holds exactly, as the counts and
    the length of a password are: the quotient of the two floats. *)
Definition binary64_true_div (a b : Z) : float :=
  (float_of_int a / float_of_int b)%float.

(** [calculate_entropy] on binary64 floats; [log2] stands for [math.log2],
    which is the C library's. *)
Definition binary64_entropy (log2 : float -> float) (password : string)
  : float :=
  calculate_entropy float 0%float binary64_true_div PrimFloat.mul
    PrimFloat.sub log2 password.

(** *** The formula of the specification *)

(** The distinct characters of a list, in the order they first occur in. *)
Definition first_occurrences (l : list ascii) : list ascii :=
  fold_left
    (fun seen c => if bool_decide (c ∈ seen) then seen else seen ++ [c])
    l [].

Section Shannon.

Variable float : Type.
Variable zero : float.
Variable true_div : Z -> Z -> float.
Variable mul sub : float -> float -> float.
Variable log2 : float -> float.

(** For each distinct character, [p] is its number of occurrences over the
    length, and the entropy is [0.0] minus the terms [p * log2(p)], taken
    one after the other in the order of first occurrence. *)
Definition shannon_sum (password : string) : float :=
  fold_left
    (fun entropy c =>
       let p :=
         true_div
           (Z.of_nat
              (List.length
                 (filter (fun x => x = c) (list_ascii_of_string password))))
           (Z.of_nat (String.length password)) in
       sub entropy (mul p (log2 p)))
    (first_occurrences (list_ascii_of_string password)) zero.

End Shannon.

(** ** Exceptions, the random source and the monad of the generator *)

(** The three [ValueError]s raised by [generate_random_password], by the
    message they carry:
    - [Password length must be at least 1.]
    - [No character types selected. At least one type must be chosen.]
    - [Password length (..) is too short to include at least one char from
      each of the .. selected categories.] *)
Inductive value_error : Type :=
| LengthBelowOne
| NoCharacterTypes
| TooShortForCategories (length : Z) (categories : nat).

Inductive exn : Type :=
| ValueError (e : value_error)
| IndexError.

(** What a computation does: it returns, it raises, or its [while] loop is
    still running when the iteration budget is spent. *)
Inductive outcome (A : Type) : Type :=
| Returns (a : A)
| Raises (e : exn)
| OutOfFuel.

Arguments Returns {A} a.
Arguments Raises {A} e.
Arguments OutOfFuel {A}.

Module Rand.
Section Source.

(** The raw draws of the operating system's random source. *)
Variable rnd : nat -> nat.

(** A computation reads the source from a position on and returns the
    position it stopped at. *)
Definition M (A : Type) : Type := nat -> outcome (A * nat).

Definition ret {A} (a : A) : M A := fun pos => Returns (a, pos).

Definition bind {A B} (m : M A) (k : A -> M B) : M B :=
  fun pos =>
    match m pos with
    | Returns (a, pos') => k a pos'
    | Raises e => Raises e
    | OutOfFuel => OutOfFuel
    end.

Definition raise {A} (e : exn) : M A := fun _ => Raises e.

Definition out_of_fuel {A} : M A := fun _ => OutOfFuel.

(** [_randbelow(n)]: one draw, uniform below [n]. *)
Definition randbelow (n : nat) : M nat :=
  fun pos => Returns (rnd pos mod n, S pos).

(** [secrets.choice(seq)]: [IndexError] on an empty sequence, else
    [seq[_randbelow(len(seq))]]. *)
Definition choice (seq : string) : M ascii :=
  match String.length seq with
  | 0 => raise IndexError
  | n =>
      bind (randbelow n) (fun i =>
      match String.get i seq with
      | Some c => ret c
      | None => raise IndexError
      end)
  end.

(** [x[i], x[j] = x[j], x[i]] *)
Definition swap (x : list ascii) (i j : nat) : M (list ascii) :=
  match x !! j, x !! i with
  | Some xj, Some xi => ret (<[j:=xi]> (<[i:=xj]> x))
  | _, _ => raise IndexError
  end.

(** The loop of [random.shuffle]:
    [for i in reversed(range(1, len(x))): j = randbelow(i + 1); swap],
    from index [i] down to 1. *)
Fixpoint shuffle_from (i : nat) (x : list ascii) : M (list ascii) :=
  match i with
  | 0 => ret x
  | S i' =>
      bind (randbelow (S i)) (fun j =>
      bind (swap x i j) (fun x' =>
      shuffle_from i' x'))
  end.

(** [secrets.SystemRandom().shuffle(x)] *)
Definition shuffle (x : list ascii) : M (list ascii) :=
  shuffle_from (length x - 1) x.

End Source.
End Rand.

Notation "'let*' x ':=' m 'in' k" := (Rand.bind m (fun x => k))
  (at level 10, x name, m at level 100, k at level 200).

(** ** [generate_random_password] *)

(** The special characters, written out in the source. *)
Definition special_characters : string := "!@#$%^&*()-_=+[]{}|;:,.<>?/\".

(** Lines 58-66: the pools of the selected classes, in this order. *)
Definition selected_pools (use_lower use_upper use_digits use_special : bool)
  : list string :=
  (if use_lower then [Py.ascii_lowercase] else [])
  ++ (if use_upper then [Py.ascii_uppercase] else [])
  ++ (if use_digits then [Py.digits] else [])
  ++ (if use_special then [special_characters] else []).

Section Generator.

Variable rnd : nat -> nat.

(** Lines 81-82: one character of each pool, appended in pool order. *)
Fixpoint seed_each (pools : list string) (password_chars : list ascii)
  : Rand.M (list ascii) :=
  match pools with
  | [] => Rand.ret password_chars
  | pool :: pools' =>
      let* c := Rand.choice rnd pool in
      seed_each pools' (password_chars ++ [c])
  end.

(** Line 86: [not password_chars or new_char != password_chars[-1]] *)
Definition accepts (password_chars : list ascii) (new_char : ascii) : bool :=
  match last password_chars with
  | None => true
  | Some c => negb (Ascii.eqb new_char c)
  end.

(** Lines 85-87: the body of the [while] loop. *)
Definition fill_body (all_chars : string) (password_chars : list ascii)
  : Rand.M (list ascii) :=
  let* new_char := Rand.choice rnd all_chars in
  Rand.ret (if accepts password_chars new_char
            then password_chars ++ [new_char]
            else password_chars).

(** Lines 84-87: the [while] loop, run for at most [fuel] iterations. *)
Fixpoint fill (fuel : nat) (length : Z) (all_chars : string)
  (password_chars : list ascii) : Rand.M (list ascii) :=
  if (Z.of_nat (List.length password_chars) <? length)%Z then
    match fuel with
    | 0 => Rand.out_of_fuel
    | S fuel' =>
        let* password_chars' := fill_body all_chars password_chars in
        fill fuel' length all_chars password_chars'
    end
  else Rand.ret password_chars.

(** Lines 55-87: everything before the shuffle. *)
Definition assemble (fuel : nat) (length : Z)
  (use_lower use_upper use_digits use_special require_each : bool)
  : Rand.M (list ascii) :=
  if (length <? 1)%Z then Rand.raise (ValueError LengthBelowOne) else
  let pools := selected_pools use_lower use_upper use_digits use_special in
  match pools with
  | [] => Rand.raise (ValueError NoCharacterTypes)
  | _ =>
      if require_each && (length <? Z.of_nat (List.length pools))%Z
      then Rand.raise
             (ValueError (TooShortForCategories length (List.length pools)))
      else
        let all_chars := String.concat "" pools in
        let* password_chars :=
          (if require_each then seed_each pools [] else Rand.ret []) in
        fill fuel length all_chars password_chars
  end.

Definition generate_random_password (fuel : nat) (length : Z)
  (use_lower use_upper use_digits use_special require_each : bool)
  : Rand.M string :=
  let* password_chars :=
    assemble fuel length
      use_lower use_upper use_digits use_special require_each in
  let* shuffled := Rand.shuffle rnd password_chars in
  Rand.ret (string_of_list_ascii shuffled).

End Generator.

(** ** Vocabulary of the properties *)

(** The characters of a string, as a list. *)
Abbreviation chars := list_ascii_of_string.

(** No two adjacent characters are equal. *)
Definition no_adjacent_repeat (l : list ascii) : Prop :=
  forall i a b, l !! i = Some a -> l !! S i = Some b -> a <> b.

Fixpoint no_adjacent_repeatb (l : list ascii) : bool :=
  match l with
  | a :: (b :: _) as l' => negb (Ascii.eqb a b) && no_adjacent_repeatb l'
  | _ => true
  end.

(** Two pools share no character. *)
Definition disjoint_pools (p q : string) : Prop :=
  forall c, c ∈ chars p -> c ∈ chars q -> False.

Definition disjoint_poolsb (p q : string) : bool :=
  forallb (fun c => negb (existsb (Ascii.eqb c) (chars q))) (chars p).

(** The pools of a list share no character with one another. *)
Fixpoint pairwise_disjoint (pools : list string) : Prop :=
  match pools with
  | [] => True
  | p :: pools' => Forall (disjoint_pools p) pools' /\ pairwise_disjoint pools'
  end.

Fixpoint nodupb (l : list ascii) : bool :=
  match l with
  | [] => true
  | c :: l' => negb (existsb (Ascii.eqb c) l') && nodupb l'
  end.

(** [reps] holds one character of each pool, in pool order. *)
Definition one_of_each (reps : list ascii) (pools : list string) : Prop :=
  Forall2 (fun c pool => c ∈ chars pool) reps pools.

(** The combined alphabet of the selected classes. *)
Definition alphabet (use_lower use_upper use_digits use_special : bool)
  : string :=
  String.concat "" (selected_pools use_lower use_upper use_digits use_special).

(** A configuration the generator accepts. *)
Definition valid_config (length : Z)
  (use_lower use_upper use_digits use_special require_each : bool) : Prop :=
  (1 <= length)%Z /\
  use_lower || use_upper || use_digits || use_special = true /\
  (require_each = true ->
   (Z.of_nat (List.length
      (selected_pools use_lower use_upper use_digits use_special))
    <= length)%Z).

(** The string holds a character of each pool. *)
Definition covers (s : string) (pools : list string) : Prop :=
  forall pool, pool ∈ pools -> exists c, c ∈ chars s /\ c ∈ chars pool.

(** The random source never repeats one value modulo [n] for ever. *)
Definition never_stuck (rnd : nat -> nat) (n : nat) : Prop :=
  forall i, exists j, i < j /\ rnd j mod n <> rnd i mod n.

(** The character the source draws from the alphabet at a position. *)
Definition drawn (rnd : nat -> nat) (all_chars : string) (pos : nat)
  : option ascii :=
  chars all_chars !! (rnd pos mod String.length all_chars).

(** The [while] loop returns for some budget. *)
Definition loop_ends (rnd : nat -> nat) (length : Z) (all_chars : string)
  (l : list ascii) (pos : nat) : Prop :=
  exists fuel r, fill rnd fuel length all_chars l pos = Returns r.

(** The characters seeded before the [while] loop starts. *)
Definition seeded_ok (require_each : bool) (pools : list string)
  (seeded : list ascii) : Prop :=
  if require_each then one_of_each seeded pools else seeded = [].

(** A random source given by its first draws; the draws after them are 0. *)
Definition draws (l : list nat) : nat -> nat := fun i => nth i l 0.

(** ** [main]: the alphabet, the search space and the exit test *)

(** Lines 127-135: the alphabet [main] builds again for the search space. *)
Definition main_all_chars (f : Flags) : string :=
  let all_chars := "" in
  let all_chars :=
    if include_lower f then all_chars +:+ Py.ascii_lowercase else all_chars in
  let all_chars :=
    if include_upper f then all_chars +:+ Py.ascii_uppercase else all_chars in
  let all_chars :=
    if include_digits f then all_chars +:+ Py.digits else all_chars in
  let all_chars :=
    if include_special f then all_chars +:+ special_characters
    else all_chars in
  all_chars.

(** Line 138: [calculate_search_space_size(length, all_chars)] *)
Definition main_search_space (length : Z) (f : Flags) : Z :=
  calculate_search_space_size length (main_all_chars f).

(** Line 157: [user_choice.lower() == "exit"] *)
Definition main_exits (user_choice : string) : bool :=
  String.eqb (Py.lower user_choice) "exit".

(** A line made of white space only. *)
Definition blank (s : string) : bool := forallb Py.is_space (chars s).

(** The number of times a character occurs in a string. *)
Definition occurrences (c : ascii) (s : string) : nat :=
  List.length (filter (fun x => x = c) (chars s)).

(** The first position of a character in a list, 0 when it is missing. *)
Fixpoint index_of (c : ascii) (l : list ascii) : nat :=
  match l with
  | [] => 0
  | x :: l' => if Ascii.eqb c x then 0 else S (index_of c l')
  end.

(** A random source that makes the generator draw the characters of
    [target] one after the other from [all_chars] and then leaves every
    position in place during the shuffle. *)
Definition source_for (target : list ascii) (all_chars : string)
  : nat -> nat :=
  fun pos =>
    if pos <? List.length target
    then index_of (nth pos target "000"%char) (chars all_chars)
    else 2 * List.length target - 1 - pos.

(** * Properties *)

Section Prompts.

Example strip_lower_yes : Py.lower (Py.strip "  YeS ") = "yes".
Proof. reflexivity. Qed.

Example get_bool_input_yes : get_bool_input " Y" false = true.
Proof. reflexivity. Qed.

Example get_bool_input_no : get_bool_input "NO  " true = false.
Proof. reflexivity. Qed.

Example get_bool_input_other : get_bool_input "yep" false = false.
Proof. reflexivity. Qed.

Lemma contains_yes answer :
  Py.contains ["y"; "yes"] answer = true <-> answer = "y" \/ answer = "yes".
Proof.
  unfold Py.contains; simpl.
  rewrite !orb_true_iff, !String.eqb_eq. intuition congruence.
Qed.

Lemma contains_no answer :
  Py.contains ["n"; "no"] answer = true <-> answer = "n" \/ answer = "no".
Proof.
  unfold Py.contains; simpl.
  rewrite !orb_true_iff, !String.eqb_eq. intuition congruence.
Qed.

Lemma get_bool_input_true line default :
  yes_answer line -> get_bool_input line default = true.
Proof.
  intros H. unfold get_bool_input.
  apply contains_yes in H. now rewrite H.
Qed.

Lemma yes_not_no line : yes_answer line -> ~ no_answer line.
Proof. intros [H | H] [H' | H']; rewrite H in H'; discriminate. Qed.

Lemma get_bool_input_false line default :
  no_answer line -> get_bool_input line default = false.
Proof.
  intros H. unfold get_bool_input.
  destruct (Py.contains ["y"; "yes"] _) eqn:Hy.
  - apply contains_yes in Hy. now destruct (yes_not_no line Hy).
  - apply contains_no in H. now rewrite H.
Qed.

Lemma get_bool_input_default line default :
  ~ yes_answer line -> ~ no_answer line ->
  get_bool_input line default = default.
Proof.
  intros Hy Hn. unfold get_bool_input.
  destruct (Py.contains ["y"; "yes"] _) eqn:Ey.
  { apply contains_yes in Ey. contradiction. }
  destruct (Py.contains ["n"; "no"] _) eqn:En.
  { apply contains_no in En. contradiction. }
  reflexivity.
Qed.

End Prompts.

(** ** The monad and the string primitives *)

Section Primitives.

Variable rnd : nat -> nat.

Lemma bind_returns {A B} (m : Rand.M A) (k : A -> Rand.M B) pos b pos' :
  Rand.bind m k pos = Returns (b, pos') <->
  exists a p, m pos = Returns (a, p) /\ k a p = Returns (b, pos').
Proof.
  unfold Rand.bind. split.
  - destruct (m pos) as [[a p] | e |]; try discriminate. eauto.
  - intros (a & p & -> & H). exact H.
Qed.

Lemma get_lookup s i : String.get i s = chars s !! i.
Proof.
  revert i. induction s as [| c s IH]; intros [| i]; simpl; auto.
Qed.

Lemma length_chars s : length (chars s) = String.length s.
Proof. induction s; simpl; auto. Qed.

Lemma chars_append s t : chars (s +:+ t) = chars s ++ chars t.
Proof. induction s as [| c s IH]; simpl; [reflexivity | now rewrite IH]. Qed.

Lemma length_string_of_list l :
  String.length (string_of_list_ascii l) = length l.
Proof. induction l; simpl; auto. Qed.

(** On a sequence that is not empty [choice] returns the character at
    the drawn index and consumes one draw. *)
Lemma choice_nonempty seq pos :
  String.length seq <> 0 ->
  exists c,
    chars seq !! (rnd pos mod String.length seq) = Some c /\
    Rand.choice rnd seq pos = Returns (c, S pos).
Proof.
  intros Hlen. unfold Rand.choice.
  destruct (String.length seq) as [| n] eqn:E; [congruence |].
  unfold Rand.bind, Rand.randbelow. rewrite get_lookup.
  destruct (lookup_lt_is_Some_2 (chars seq) (rnd pos mod S n)) as [c Hc].
  { rewrite length_chars, E. apply Nat.mod_upper_bound. lia. }
  exists c. now rewrite Hc.
Qed.

Lemma choice_returns seq pos c pos' :
  Rand.choice rnd seq pos = Returns (c, pos') ->
  pos' = S pos /\ chars seq !! (rnd pos mod String.length seq) = Some c.
Proof.
  intros H.
  destruct (Nat.eq_dec (String.length seq) 0) as [E | E].
  - unfold Rand.choice in H. rewrite E in H. discriminate.
  - destruct (choice_nonempty seq pos E) as (c' & Hc & Hr).
    rewrite Hr in H. injection H as -> ->. auto.
Qed.

End Primitives.

(** ** The shuffle permutes *)

Section Shuffle.

Variable rnd : nat -> nat.

Lemma replace_perm (l : list ascii) j a xj :
  l !! j = Some xj -> xj :: <[j:=a]> l ≡ₚ a :: l.
Proof.
  revert j. induction l as [| b l IH]; intros [| j] H; simpl in *;
    try discriminate.
  - injection H as ->. apply perm_swap.
  - rewrite perm_swap. rewrite (IH j H). apply perm_swap.
Qed.

Lemma swap_perm (x : list ascii) i j xi xj :
  x !! i = Some xi -> x !! j = Some xj ->
  <[j:=xi]> (<[i:=xj]> x) ≡ₚ x.
Proof.
  revert i j. induction x as [| a x IH]; intros [| i] [| j] Hi Hj;
    simpl in *; try discriminate.
  - injection Hi as ->. injection Hj as ->. reflexivity.
  - injection Hi as ->. now apply replace_perm.
  - injection Hj as ->. now apply replace_perm.
  - constructor. now apply IH.
Qed.

Lemma swap_returns (x : list ascii) i j pos :
  i < length x -> j < length x ->
  exists x', Rand.swap x i j pos = Returns (x', pos) /\ x' ≡ₚ x.
Proof.
  intros Hi Hj. unfold Rand.swap.
  destruct (lookup_lt_is_Some_2 x i Hi) as [xi Ei].
  destruct (lookup_lt_is_Some_2 x j Hj) as [xj Ej].
  rewrite Ei, Ej. eexists; split; [reflexivity |].
  now apply swap_perm.
Qed.

Lemma shuffle_from_returns i : forall (x : list ascii) pos,
  i < length x ->
  exists x', Rand.shuffle_from rnd i x pos = Returns (x', pos + i) /\ x' ≡ₚ x.
Proof.
  induction i as [| i IH]; intros x pos Hi.
  - exists x. simpl. unfold Rand.ret. now rewrite Nat.add_0_r.
  - cbn [Rand.shuffle_from]. unfold Rand.bind at 1, Rand.randbelow.
    assert (Hj : rnd pos mod S (S i) < length x).
    { pose proof (Nat.mod_upper_bound (rnd pos) (S (S i))). lia. }
    destruct (swap_returns x (S i) _ (S pos) Hi Hj) as (x1 & E1 & P1).
    unfold Rand.bind. rewrite E1.
    destruct (IH x1 (S pos)) as (x2 & E2 & P2).
    { rewrite P1. lia. }
    exists x2. split; [| now rewrite P2].
    rewrite E2. do 2 f_equal. lia.
Qed.

(** The shuffle always returns, with a permutation of its argument. *)
Lemma shuffle_returns (x : list ascii) pos :
  exists x', Rand.shuffle rnd x pos = Returns (x', pos + (length x - 1))
             /\ x' ≡ₚ x.
Proof.
  unfold Rand.shuffle. destruct x as [| a x].
  - exists []. simpl. unfold Rand.ret. now rewrite Nat.add_0_r.
  - apply shuffle_from_returns. simpl. lia.
Qed.

End Shuffle.

(** ** The character pools *)

Section Pools.

Lemma existsb_eqb_elem c (l : list ascii) :
  existsb (Ascii.eqb c) l = true <-> c ∈ l.
Proof.
  rewrite existsb_exists. split.
  - intros (x & Hx & E). apply Ascii.eqb_eq in E as ->.
    now apply list_elem_of_In.
  - intros H. exists c. split; [now apply list_elem_of_In |].
    apply Ascii.eqb_refl.
Qed.

Lemma disjoint_poolsb_sound p q :
  disjoint_poolsb p q = true -> disjoint_pools p q.
Proof.
  unfold disjoint_poolsb, disjoint_pools. rewrite forallb_forall.
  intros H c Hp Hq. apply list_elem_of_In in Hp.
  specialize (H c Hp). apply negb_true_iff in H.
  apply existsb_eqb_elem in Hq. congruence.
Qed.

Lemma nodupb_sound l : nodupb l = true -> NoDup l.
Proof.
  induction l as [| c l IH]; simpl; [constructor |].
  rewrite andb_true_iff, negb_true_iff. intros [Hc Hl].
  constructor; [| auto].
  intros Hin. apply existsb_eqb_elem in Hin. congruence.
Qed.

(** The four pools are pairwise disjoint. *)
Lemma four_pools_disjoint :
  pairwise_disjoint
    [Py.ascii_lowercase; Py.ascii_uppercase; Py.digits; special_characters].
Proof.
  simpl. repeat split; repeat constructor;
    apply disjoint_poolsb_sound; vm_compute; reflexivity.
Qed.

Variables use_lower use_upper use_digits use_special : bool.

Lemma selected_pools_disjoint :
  pairwise_disjoint (selected_pools use_lower use_upper use_digits use_special).
Proof.
  destruct use_lower, use_upper, use_digits, use_special; simpl;
    repeat split; repeat constructor;
    apply disjoint_poolsb_sound; vm_compute; reflexivity.
Qed.

Lemma selected_pools_nonempty :
  Forall (fun pool => String.length pool <> 0)
    (selected_pools use_lower use_upper use_digits use_special).
Proof.
  destruct use_lower, use_upper, use_digits, use_special; simpl;
    repeat constructor; discriminate.
Qed.

Lemma selected_pools_nil :
  selected_pools use_lower use_upper use_digits use_special = []
  <-> use_lower || use_upper || use_digits || use_special = false.
Proof.
  destruct use_lower, use_upper, use_digits, use_special; simpl;
    split; (reflexivity || discriminate).
Qed.

(** The combined alphabet holds no character twice. *)
Lemma all_chars_NoDup :
  NoDup (chars (alphabet use_lower use_upper use_digits use_special)).
Proof.
  apply nodupb_sound.
  destruct use_lower, use_upper, use_digits, use_special;
    vm_compute; reflexivity.
Qed.

Lemma all_chars_nonempty :
  selected_pools use_lower use_upper use_digits use_special <> [] ->
  String.length (alphabet use_lower use_upper use_digits use_special) <> 0.
Proof.
  destruct use_lower, use_upper, use_digits, use_special; simpl;
    intros Hne; try (now destruct Hne); vm_compute; intros H; discriminate H.
Qed.

Lemma chars_concat (ls : list string) :
  chars (String.concat "" ls) = List.concat (map chars ls).
Proof.
  induction ls as [| x [| y ys] IH].
  - reflexivity.
  - simpl. now rewrite app_nil_r.
  - change (String.concat "" (x :: y :: ys))
      with (x +:+ "" +:+ String.concat "" (y :: ys)).
    rewrite !chars_append, IH. reflexivity.
Qed.

(** The combined alphabet is made of the characters of the pools. *)
Lemma all_chars_elem (ls : list string) c :
  c ∈ chars (String.concat "" ls) <->
  exists pool, pool ∈ ls /\ c ∈ chars pool.
Proof.
  rewrite chars_concat, list_elem_of_In, in_concat. split.
  - intros (l & Hl & Hc). apply in_map_iff in Hl as (pool & <- & Hp).
    exists pool. now rewrite !list_elem_of_In.
  - intros (pool & Hp & Hc). exists (chars pool).
    rewrite in_map_iff, <- list_elem_of_In. split; [| exact Hc].
    exists pool. now rewrite <- list_elem_of_In.
Qed.

End Pools.

(** ** Adjacent characters *)

Section Adjacent.

Lemma no_adjacent_repeatb_sound l :
  no_adjacent_repeatb l = true -> no_adjacent_repeat l.
Proof.
  induction l as [| a [| b l] IH]; intros H i x y Hx Hy.
  - discriminate.
  - destruct i; discriminate.
  - cbn [no_adjacent_repeatb] in H.
    apply andb_true_iff in H as [Hab Hl].
    destruct i as [| i].
    + injection Hx as <-. injection Hy as <-.
      apply negb_true_iff, Ascii.eqb_neq in Hab. exact Hab.
    + exact (IH Hl i x y Hx Hy).
Qed.

Lemma no_adjacent_repeatb_complete l :
  no_adjacent_repeat l -> no_adjacent_repeatb l = true.
Proof.
  induction l as [| a [| b l] IH]; intros H; try reflexivity.
  cbn [no_adjacent_repeatb]. apply andb_true_iff. split.
  - apply negb_true_iff, Ascii.eqb_neq. exact (H 0 a b eq_refl eq_refl).
  - apply IH. intros i x y Hx Hy. exact (H (S i) x y Hx Hy).
Qed.

Lemma no_adjacent_repeat_nil : no_adjacent_repeat [].
Proof. intros i a b H. discriminate. Qed.

(** A list without duplicates has no adjacent repeat. *)
Lemma NoDup_no_adjacent_repeat l : NoDup l -> no_adjacent_repeat l.
Proof.
  intros Hnd i a b Ha Hb ->.
  pose proof (NoDup_lookup l i (S i) b Hnd Ha Hb). lia.
Qed.

(** Appending a character that differs from the last one keeps the
    property. *)
Lemma no_adjacent_repeat_snoc l c :
  no_adjacent_repeat l -> last l <> Some c ->
  no_adjacent_repeat (l ++ [c]).
Proof.
  intros Hl Hlast i a b Ha Hb.
  destruct (decide (S i < length l)) as [Hlt | Hge].
  - rewrite lookup_app_l in Ha by lia. rewrite lookup_app_l in Hb by lia.
    exact (Hl i a b Ha Hb).
  - assert (Hi : S i = length l).
    { apply lookup_lt_Some in Hb. rewrite length_app in Hb. simpl in Hb. lia. }
    rewrite lookup_app_l in Ha by lia.
    rewrite lookup_app_r in Hb by lia.
    rewrite Hi, Nat.sub_diag in Hb. injection Hb as <-.
    intros ->. apply Hlast. rewrite last_lookup.
    rewrite <- Hi. exact Ha.
Qed.

Lemma accepts_last l c : accepts l c = true <-> last l <> Some c.
Proof.
  unfold accepts. destruct (last l) as [c' |].
  - rewrite negb_true_iff, Ascii.eqb_neq. split; congruence.
  - split; [discriminate | reflexivity].
Qed.

(** One character of each of pairwise disjoint pools: no duplicates. *)
Lemma one_of_each_NoDup reps pools :
  one_of_each reps pools -> pairwise_disjoint pools -> NoDup reps.
Proof.
  induction 1 as [| c pool reps pools Hc Hrest IH]; intros Hd.
  - constructor.
  - destruct Hd as [Hp Hd]. constructor; [| auto].
    intros Hin.
    apply list_elem_of_lookup_1 in Hin as [i Hi].
    destruct (Forall2_lookup_l _ _ _ _ _ Hrest Hi) as (q & Hq & Hcq).
    rewrite Forall_forall in Hp.
    refine (Hp q _ c Hc Hcq).
    eapply list_elem_of_lookup_2. exact Hq.
Qed.

End Adjacent.

(** ** Seeding and filling *)

Section Loops.

Variable rnd : nat -> nat.

(** The seeding loop appends one character of each pool. *)
Lemma seed_each_returns pools : forall acc pos,
  Forall (fun pool => String.length pool <> 0) pools ->
  exists reps,
    seed_each rnd pools acc pos = Returns (acc ++ reps, pos + length pools)
    /\ one_of_each reps pools.
Proof.
  induction pools as [| pool pools IH]; intros acc pos Hne.
  - exists []. simpl. unfold Rand.ret.
    rewrite app_nil_r, Nat.add_0_r. split; [reflexivity | constructor].
  - apply Forall_cons in Hne as [Hpool Hne].
    destruct (choice_nonempty rnd pool pos Hpool) as (c & Hc & Ec).
    destruct (IH (acc ++ [c]) (S pos) Hne) as (reps & Er & Hr).
    exists (c :: reps). split.
    + cbn [seed_each]. unfold Rand.bind. rewrite Ec, Er.
      rewrite <- app_assoc. simpl. do 2 f_equal. lia.
    + constructor; [| exact Hr]. eapply list_elem_of_lookup_2. exact Hc.
Qed.

Variable all_chars : string.
Hypothesis all_chars_ne : String.length all_chars <> 0.

(** One iteration of the [while] loop: one draw, appended unless it
    repeats the last character. *)
Lemma fill_body_returns l pos :
  exists c,
    chars all_chars !! (rnd pos mod String.length all_chars) = Some c /\
    fill_body rnd all_chars l pos =
      Returns (if accepts l c then l ++ [c] else l, S pos).
Proof.
  destruct (choice_nonempty rnd all_chars pos all_chars_ne) as (c & Hc & Ec).
  exists c. split; [exact Hc |].
  unfold fill_body, Rand.bind. now rewrite Ec.
Qed.

Lemma fill_body_no_adjacent l pos l' pos' :
  no_adjacent_repeat l ->
  fill_body rnd all_chars l pos = Returns (l', pos') ->
  no_adjacent_repeat l'.
Proof.
  intros Hl H. unfold fill_body in H.
  apply bind_returns in H as (c & p & _ & H). injection H as <- <-.
  destruct (accepts l c) eqn:Ea; [| exact Hl].
  apply no_adjacent_repeat_snoc; [exact Hl |]. now apply accepts_last.
Qed.

Lemma fill_body_extends l pos l' pos' :
  fill_body rnd all_chars l pos = Returns (l', pos') ->
  l' = l \/ exists c, c ∈ chars all_chars /\ l' = l ++ [c].
Proof.
  intros H. destruct (fill_body_returns l pos) as (c & Hc & E).
  rewrite E in H. injection H as <- <-.
  destruct (accepts l c); [right | now left].
  exists c. split; [| reflexivity]. eapply list_elem_of_lookup_2. exact Hc.
Qed.

Variable length : Z.

Lemma fill_unfold fuel l :
  fill rnd fuel length all_chars l =
  if (Z.of_nat (List.length l) <? length)%Z then
    match fuel with
    | 0 => Rand.out_of_fuel
    | S fuel' =>
        let* l' := fill_body rnd all_chars l in
        fill rnd fuel' length all_chars l'
    end
  else Rand.ret l.
Proof. destruct fuel; reflexivity. Qed.

(** What the [while] loop returns: the list it started from, extended by
    characters of the alphabet up to the requested length, still without
    adjacent repeat. *)
Lemma fill_returns fuel : forall l pos l' pos',
  fill rnd fuel length all_chars l pos = Returns (l', pos') ->
  (exists ext, l' = l ++ ext /\ Forall (fun c => c ∈ chars all_chars) ext) /\
  (no_adjacent_repeat l -> no_adjacent_repeat l') /\
  ((Z.of_nat (List.length l) <= length)%Z ->
   Z.of_nat (List.length l') = length).
Proof.
  induction fuel as [| fuel IH]; intros l pos l' pos' H;
    rewrite fill_unfold in H;
    destruct (Z.ltb_spec (Z.of_nat (List.length l)) length) as [Hlt | Hge].
  - discriminate.
  - injection H as <- <-. split; [| split]; [| auto | lia].
    exists []. now rewrite app_nil_r.
  - apply bind_returns in H as (l1 & pos1 & Hb & Hf).
    destruct (IH _ _ _ _ Hf) as ((ext & -> & Hext) & Hadj & Hlen).
    split; [| split].
    + destruct (fill_body_extends _ _ _ _ Hb) as [-> | (c & Hc & ->)].
      * eauto.
      * exists (c :: ext). rewrite <- app_assoc. split; [reflexivity |].
        now constructor.
    + intros Hl. apply Hadj. eapply fill_body_no_adjacent; eassumption.
    + intros _. apply Hlen.
      destruct (fill_body_extends _ _ _ _ Hb) as [-> | (c & Hc & ->)];
        [lia |]. rewrite length_app. simpl. lia.
  - injection H as <- <-. split; [| split]; [| auto | lia].
    exists []. now rewrite app_nil_r.
Qed.

(** More fuel does not change what the loop returns. *)
Lemma fill_mono fuel : forall fuel' l pos r,
  fuel <= fuel' ->
  fill rnd fuel length all_chars l pos = Returns r ->
  fill rnd fuel' length all_chars l pos = Returns r.
Proof.
  induction fuel as [| fuel IH]; intros fuel' l pos r Hle H;
    rewrite fill_unfold in H; rewrite fill_unfold;
    destruct (Z.of_nat (List.length l) <? length)%Z; try exact H.
  - discriminate.
  - destruct fuel' as [| fuel']; [lia |].
    destruct r as [l' pos'].
    apply bind_returns in H as (l1 & pos1 & Hb & Hf).
    apply bind_returns. exists l1, pos1. split; [exact Hb |].
    apply IH; [lia | exact Hf].
Qed.

End Loops.

(** ** The [while] loop ends *)

Section Termination.

Variable rnd : nat -> nat.
Variable all_chars : string.
Variable length : Z.

Hypothesis all_chars_ne : String.length all_chars <> 0.
Hypothesis all_chars_nodup : NoDup (chars all_chars).
Hypothesis fair : never_stuck rnd (String.length all_chars).

(** Whatever the last character is, some later draw differs from it. *)
Lemma later_draw_differs pos c :
  exists d, drawn rnd all_chars (pos + d) <> Some c.
Proof.
  destruct (decide (drawn rnd all_chars pos = Some c)) as [E | E].
  - destruct (fair pos) as (j & Hj & Hne).
    exists (j - pos). replace (pos + (j - pos)) with j by lia.
    intros E'. apply Hne. unfold drawn in *.
    exact (NoDup_lookup _ _ _ _ all_chars_nodup E' E).
  - exists 0. now rewrite Nat.add_0_r.
Qed.

(** Rejected draws are skipped until one is accepted. *)
Lemma fill_skips l c d : forall pos,
  (Z.of_nat (List.length l) < length)%Z ->
  last l = Some c ->
  drawn rnd all_chars (pos + d) <> Some c ->
  (forall c1 pos1, loop_ends rnd length all_chars (l ++ [c1]) pos1) ->
  loop_ends rnd length all_chars l pos.
Proof.
  induction d as [| d IH]; intros pos Hlt Hlast Hd K;
    destruct (fill_body_returns rnd all_chars all_chars_ne l pos)
      as (c1 & Hc1 & E1).
  - rewrite Nat.add_0_r in Hd.
    assert (Ha : accepts l c1 = true).
    { apply accepts_last. rewrite Hlast. intros [= ->]. now apply Hd. }
    rewrite Ha in E1.
    destruct (K c1 (S pos)) as (fuel & r & Hf).
    exists (S fuel), r. rewrite fill_unfold.
    apply Z.ltb_lt in Hlt. rewrite Hlt.
    unfold Rand.bind. now rewrite E1.
  - assert (Hnext : loop_ends rnd length all_chars
                      (if accepts l c1 then l ++ [c1] else l) (S pos)).
    { destruct (accepts l c1); [apply K |].
      apply IH; auto. now replace (S pos + d) with (pos + S d) by lia. }
    destruct Hnext as (fuel & r & Hf).
    exists (S fuel), r. rewrite fill_unfold.
    apply Z.ltb_lt in Hlt. rewrite Hlt.
    unfold Rand.bind. now rewrite E1.
Qed.

Lemma fill_ends k : forall l pos,
  Z.to_nat (length - Z.of_nat (List.length l)) = k ->
  loop_ends rnd length all_chars l pos.
Proof.
  induction k as [| k IH]; intros l pos Hk.
  - exists 0, (l, pos). rewrite fill_unfold.
    destruct (Z.ltb_spec (Z.of_nat (List.length l)) length); [lia |].
    reflexivity.
  - assert (Hlt : (Z.of_nat (List.length l) < length)%Z) by lia.
    assert (K : forall c1 pos1,
               loop_ends rnd length all_chars (l ++ [c1]) pos1).
    { intros c1 pos1. apply IH. rewrite length_app. simpl. lia. }
    destruct (last l) as [c |] eqn:Hlast.
    + destruct (later_draw_differs pos c) as [d Hd].
      now apply (fill_skips l c d).
    + destruct (fill_body_returns rnd all_chars all_chars_ne l pos)
        as (c1 & Hc1 & E1).
      assert (Ha : accepts l c1 = true).
      { apply accepts_last. rewrite Hlast. discriminate. }
      rewrite Ha in E1.
      destruct (K c1 (S pos)) as (fuel & r & Hf).
      exists (S fuel), r. rewrite fill_unfold.
      apply Z.ltb_lt in Hlt. rewrite Hlt.
      unfold Rand.bind. now rewrite E1.
Qed.

(** With a random source that is never stuck the [while] loop returns
    for every budget from some budget on. *)
Lemma fill_terminates l pos :
  exists fuel0 l' pos',
    forall fuel, fuel0 <= fuel ->
      fill rnd fuel length all_chars l pos = Returns (l', pos').
Proof.
  destruct (fill_ends _ l pos eq_refl) as (fuel0 & [l' pos'] & H).
  exists fuel0, l', pos'. intros fuel Hle.
  eapply fill_mono; eassumption.
Qed.

End Termination.

(** ** The generator as a whole *)

Section Generate.

Variable rnd : nat -> nat.
Variable length : Z.
Variables use_lower use_upper use_digits use_special require_each : bool.

Local Abbreviation pools :=
  (selected_pools use_lower use_upper use_digits use_special).
Local Abbreviation all_chars :=
  (alphabet use_lower use_upper use_digits use_special).

(** A call that gets past the three checks has a valid configuration. *)
Lemma assemble_not_raised fuel pos :
  (forall e, assemble rnd fuel length use_lower use_upper use_digits
               use_special require_each pos <> Raises (ValueError e)) ->
  valid_config length use_lower use_upper use_digits use_special
    require_each.
Proof.
  unfold assemble, valid_config. intros H.
  destruct (Z.ltb_spec length 1) as [Hlt | Hge].
  { now destruct (H LengthBelowOne). }
  pose proof (selected_pools_nil use_lower use_upper use_digits use_special)
    as Hnil.
  destruct pools as [| p ps] eqn:Ep.
  { now destruct (H NoCharacterTypes). }
  split; [exact Hge |]. split.
  { destruct (use_lower || use_upper || use_digits || use_special);
      [reflexivity |]. discriminate (proj2 Hnil eq_refl). }
  intros ->.
  destruct (Z.ltb_spec length (Z.of_nat (List.length (p :: ps))))
    as [Hshort | Hok]; [| exact Hok].
  now destruct (H (TooShortForCategories length (List.length (p :: ps)))).
Qed.

(** With a valid configuration the three checks pass, the seeding loop
    returns, and the rest is the [while] loop. *)
Lemma assemble_valid pos :
  valid_config length use_lower use_upper use_digits use_special
    require_each ->
  exists seeded pos1,
    seeded_ok require_each pools seeded /\
    (Z.of_nat (List.length seeded) <= length)%Z /\
    forall fuel,
      assemble rnd fuel length use_lower use_upper use_digits use_special
        require_each pos
      = fill rnd fuel length all_chars seeded pos1.
Proof.
  intros (Hlen & Hsel & Hreq). unfold assemble.
  pose proof (selected_pools_nil use_lower use_upper use_digits use_special)
    as Hnil.
  pose proof (selected_pools_nonempty use_lower use_upper use_digits
                use_special) as Hne.
  destruct (Z.ltb_spec length 1) as [Hlt | _]; [lia |].
  unfold seeded_ok, alphabet.
  destruct pools as [| p ps] eqn:Ep.
  { rewrite Hsel in Hnil. discriminate (proj1 Hnil eq_refl). }
  destruct require_each.
  - specialize (Hreq eq_refl).
    destruct (Z.ltb_spec length (Z.of_nat (List.length (p :: ps))))
      as [Hshort | _]; [lia |].
    destruct (seed_each_returns rnd (p :: ps) [] pos Hne)
      as (reps & Er & Hr).
    exists reps, (pos + List.length (p :: ps)).
    split; [exact Hr |]. split.
    { apply Forall2_length in Hr. rewrite Hr. exact Hreq. }
    intros fuel. cbn [andb]. unfold Rand.bind at 1. now rewrite Er.
  - exists [], pos. split; [reflexivity |]. split; [simpl; lia |].
    intros fuel. reflexivity.
Qed.

(** What [assemble] returns. *)
Lemma assemble_returns fuel pos l pos' :
  assemble rnd fuel length use_lower use_upper use_digits use_special
    require_each pos = Returns (l, pos') ->
  exists seeded ext,
    l = seeded ++ ext /\
    seeded_ok require_each pools seeded /\
    Forall (fun c => c ∈ chars all_chars) ext /\
    no_adjacent_repeat l /\
    Z.of_nat (List.length l) = length.
Proof.
  intros H.
  assert (Hv : valid_config length use_lower use_upper use_digits
                 use_special require_each).
  { apply (assemble_not_raised fuel pos). intros e. rewrite H. discriminate. }
  destruct (assemble_valid pos Hv) as (seeded & pos1 & Hs & Hle & E).
  rewrite E in H.
  assert (Hne : String.length all_chars <> 0).
  { apply all_chars_nonempty. intros Hnil.
    apply selected_pools_nil in Hnil. destruct Hv as (_ & Hsel & _).
    congruence. }
  destruct (fill_returns rnd all_chars Hne length fuel _ _ _ _ H)
    as ((ext & -> & Hext) & Hadj & Hlen).
  exists seeded, ext. repeat split; auto.
  apply Hadj. unfold seeded_ok in Hs. destruct require_each.
  - apply NoDup_no_adjacent_repeat.
    apply (one_of_each_NoDup _ pools Hs). apply selected_pools_disjoint.
  - subst seeded. apply no_adjacent_repeat_nil.
Qed.

(** [generate_random_password] returns a string exactly when [assemble]
    returns a list, and the string is a permutation of that list. *)
Lemma generate_returns fuel pos s pos' :
  generate_random_password rnd fuel length use_lower use_upper use_digits
    use_special require_each pos = Returns (s, pos') ->
  exists l pos1,
    assemble rnd fuel length use_lower use_upper use_digits use_special
      require_each pos = Returns (l, pos1) /\
    chars s ≡ₚ l.
Proof.
  unfold generate_random_password. intros H.
  apply bind_returns in H as (l & pos1 & Ha & H).
  apply bind_returns in H as (x & pos2 & Hs & H).
  injection H as <- <-.
  exists l, pos1. split; [exact Ha |].
  destruct (shuffle_returns rnd l pos1) as (x' & E & P).
  rewrite E in Hs. injection Hs as <- _.
  now rewrite list_ascii_of_string_of_list_ascii.
Qed.

Lemma generate_of_assemble fuel pos l pos1 :
  assemble rnd fuel length use_lower use_upper use_digits use_special
    require_each pos = Returns (l, pos1) ->
  exists s pos',
    generate_random_password rnd fuel length use_lower use_upper
      use_digits use_special require_each pos = Returns (s, pos').
Proof.
  intros Ha. destruct (shuffle_returns rnd l pos1) as (x' & E & P).
  exists (string_of_list_ascii x'), (pos1 + (List.length l - 1)).
  unfold generate_random_password, Rand.bind. now rewrite Ha, E.
Qed.

(** A valid configuration and a random source that is never stuck: the
    call returns, with the same string for every large enough budget. *)
Lemma generate_terminates pos :
  valid_config length use_lower use_upper use_digits use_special
    require_each ->
  never_stuck rnd (String.length all_chars) ->
  exists fuel0 s pos',
    forall fuel, fuel0 <= fuel ->
      generate_random_password rnd fuel length use_lower use_upper
        use_digits use_special require_each pos = Returns (s, pos').
Proof.
  intros Hv Hfair.
  destruct (assemble_valid pos Hv) as (seeded & pos1 & Hs & Hle & E).
  assert (Hne : String.length all_chars <> 0).
  { apply all_chars_nonempty. intros Hnil.
    apply selected_pools_nil in Hnil. destruct Hv as (_ & Hsel & _).
    congruence. }
  destruct (fill_terminates rnd all_chars length Hne
              (all_chars_NoDup _ _ _ _) Hfair seeded pos1)
    as (fuel0 & l & pos2 & Hf).
  destruct (generate_of_assemble fuel0 pos l pos2) as (s & pos' & Hg).
  { rewrite E. now apply Hf. }
  exists fuel0, s, pos'. intros fuel Hfuel.
  unfold generate_random_password, Rand.bind in *.
  rewrite E in *. rewrite (Hf fuel Hfuel). now rewrite (Hf fuel0) in Hg.
Qed.

(** A valid configuration never raises. *)
Lemma generate_valid_no_raise fuel pos e :
  valid_config length use_lower use_upper use_digits use_special
    require_each ->
  generate_random_password rnd fuel length use_lower use_upper
    use_digits use_special require_each pos <> Raises e.
Proof.
  intros Hv.
  destruct (assemble_valid pos Hv) as (seeded & pos1 & Hs & Hle & E).
  assert (Hne : String.length all_chars <> 0).
  { apply all_chars_nonempty. intros Hnil.
    apply selected_pools_nil in Hnil. destruct Hv as (_ & Hsel & _).
    congruence. }
  unfold generate_random_password, Rand.bind. rewrite E.
  destruct (fill rnd fuel length all_chars seeded pos1)
    as [[l p] | e' |] eqn:Ef.
  - destruct (shuffle_returns rnd l p) as (x' & Ex & _). now rewrite Ex.
  - exfalso. clear E Hs Hle. revert seeded pos1 Ef.
    induction fuel as [| fuel' IH]; intros seeded pos1 Ef;
      rewrite fill_unfold in Ef;
      destruct (Z.of_nat (List.length seeded) <? length)%Z;
      try discriminate.
    destruct (fill_body_returns rnd all_chars Hne seeded pos1)
      as (c & _ & Eb).
    unfold Rand.bind in Ef. rewrite Eb in Ef. eapply IH, Ef.
  - discriminate.
Qed.

End Generate.

(** ** Random sources *)

Section Sources.

(** The source 0, 1, 2, ... is never stuck. *)
Lemma never_stuck_count n : 2 <= n -> never_stuck (fun i => i) n.
Proof.
  intros Hn i. exists (S i). split; [lia |].
  intros E.
  pose proof (Nat.div_mod (S i) n ltac:(lia)) as H1.
  pose proof (Nat.div_mod i n ltac:(lia)) as H2.
  rewrite E in H1.
  destruct (Nat.le_gt_cases (S i / n) (i / n)) as [Hq | Hq].
  - pose proof (Nat.mul_le_mono_l _ _ n Hq). lia.
  - pose proof (Nat.mul_le_mono_l _ _ n Hq).
    rewrite Nat.mul_succ_r in *. lia.
Qed.

(** A source that always draws the same value leaves the [while] loop
    running once the list is not empty: the hypothesis of
    [generate_terminates] cannot be dropped. *)
Remark stuck_source_never_returns fuel :
  generate_random_password (fun _ => 7) fuel 2 true true true true false 0
  = OutOfFuel.
Proof.
  assert (H : forall fuel pos,
             fill (fun _ => 7) fuel 2
               (alphabet true true true true) ["h"%char] pos = OutOfFuel).
  { clear fuel. induction fuel as [| fuel IH]; intros pos; [reflexivity |].
    rewrite fill_unfold. cbn [List.length Z.of_nat Z.ltb Z.compare
      Pos.compare Pos.of_succ_nat Pos.compare_cont].
    unfold Rand.bind.
    replace (fill_body (fun _ => 7) (alphabet true true true true)
               ["h"%char] pos) with (Returns (["h"%char], S pos))
      by reflexivity.
    apply IH. }
  destruct fuel as [| fuel]; [reflexivity |].
  unfold generate_random_password, Rand.bind.
  replace (assemble (fun _ => 7) (S fuel) 2 true true true true false 0)
    with (fill (fun _ => 7) fuel 2 (alphabet true true true true)
            ["h"%char] 1) by reflexivity.
  now rewrite H.
Qed.

End Sources.

(** ** The frequency table and the entropy *)

Section Frequencies.

Lemma dict_get_fresh (freq : list (ascii * Z)) c d :
  c ∉ freq.*1 -> dict_get freq c d = d.
Proof.
  induction freq as [| [k v] freq IH]; simpl; [reflexivity |].
  intros H. apply not_elem_of_cons in H as [Hk H].
  destruct (Ascii.eqb_spec c k); [congruence | auto].
Qed.

Lemma dict_set_fresh (freq : list (ascii * Z)) c v :
  c ∉ freq.*1 -> dict_set freq c v = freq ++ [(c, v)].
Proof.
  induction freq as [| [k w] freq IH]; simpl; [reflexivity |].
  intros H. apply not_elem_of_cons in H as [Hk H].
  destruct (Ascii.eqb_spec c k); [congruence |]. now rewrite IH.
Qed.

Lemma dict_get_set (freq : list (ascii * Z)) k v c d :
  dict_get (dict_set freq k v) c d
  = if Ascii.eqb c k then v else dict_get freq c d.
Proof.
  induction freq as [| [k' v'] freq IH]; simpl.
  - reflexivity.
  - destruct (Ascii.eqb_spec k k') as [<- | Hk]; simpl.
    + now destruct (Ascii.eqb c k).
    + rewrite IH. destruct (Ascii.eqb_spec c k') as [-> | Hc]; [| reflexivity].
      destruct (Ascii.eqb_spec k' k); [congruence | reflexivity].
Qed.

(** The table holds, for every character, the number of times it occurs. *)
Lemma count_chars_get password c :
  dict_get (count_chars password) c 0
  = Z.of_nat (List.length (filter (fun x => x = c) (chars password))).
Proof.
  unfold count_chars.
  assert (H : forall l freq,
    dict_get
      (fold_left
         (fun freq char => dict_set freq char (dict_get freq char 0 + 1)%Z)
         l freq) c 0
    = (dict_get freq c 0
       + Z.of_nat (List.length (filter (fun x => x = c) l)))%Z).
  { induction l as [| x l IH]; intros freq; simpl.
    - lia.
    - rewrite IH, dict_get_set.
      destruct (Ascii.eqb_spec c x) as [-> | Hne].
      + rewrite filter_cons_True by reflexivity. simpl length. lia.
      + rewrite filter_cons_False by congruence. reflexivity. }
  now rewrite H.
Qed.

(** Characters that are pairwise distinct are each counted once, in the
    order they occur in. *)
Lemma count_distinct (l : list ascii) : forall freq,
  NoDup (freq.*1 ++ l) ->
  fold_left
    (fun freq char => dict_set freq char (dict_get freq char 0 + 1)%Z) l freq
  = freq ++ map (fun c => (c, 1%Z)) l.
Proof.
  induction l as [| c l IH]; intros freq Hnd; simpl.
  - now rewrite app_nil_r.
  - assert (Hc : c ∉ freq.*1).
    { apply NoDup_app in Hnd as (_ & Hd & _). intros Hin.
      apply (Hd c Hin). now left. }
    rewrite dict_get_fresh, dict_set_fresh by exact Hc.
    rewrite IH.
    + now rewrite <- app_assoc.
    + rewrite fmap_app. simpl. now rewrite <- app_assoc.
Qed.

(** A character that is repeated is counted in one entry. *)
Lemma count_repeated c n : forall k,
  fold_left
    (fun freq char => dict_set freq char (dict_get freq char 0 + 1)%Z)
    (replicate n c) [(c, k)]
  = [(c, (k + Z.of_nat n)%Z)].
Proof.
  induction n as [| n IH]; intros k;
    cbn [replicate fold_left dict_get dict_set].
  - now rewrite Z.add_0_r.
  - rewrite Ascii.eqb_refl, IH. do 2 f_equal. lia.
Qed.

Lemma count_chars_distinct password :
  NoDup (chars password) ->
  count_chars password = map (fun c => (c, 1%Z)) (chars password).
Proof. intros H. unfold count_chars. now rewrite count_distinct. Qed.

Lemma count_chars_repeated password c n :
  chars password = replicate (S n) c ->
  count_chars password = [(c, Z.of_nat (S n))].
Proof.
  intros H. unfold count_chars. rewrite H. simpl replicate.
  cbn [fold_left dict_get dict_set]. rewrite count_repeated.
  do 2 f_equal. lia.
Qed.

(** The empty string has entropy [0.0], whatever the arithmetic. *)
Lemma calculate_entropy_empty float zero true_div mul sub log2 :
  calculate_entropy float zero true_div mul sub log2 "" = zero.
Proof. reflexivity. Qed.

(** [n] identical characters: one term, with [p = n / n]. *)
Lemma calculate_entropy_repeated float zero true_div mul sub log2
  password c n :
  chars password = replicate (S n) c ->
  calculate_entropy float zero true_div mul sub log2 password
  = sub zero (mul (true_div (Z.of_nat (S n)) (Z.of_nat (S n)))
                  (log2 (true_div (Z.of_nat (S n)) (Z.of_nat (S n))))).
Proof.
  intros H. unfold calculate_entropy.
  rewrite (count_chars_repeated password c n H).
  rewrite <- length_chars, H, length_replicate.
  destruct password; [discriminate H | reflexivity].
Qed.

(** In exact arithmetic [n] identical characters have entropy 0. *)
Lemma exact_entropy_repeated password c n :
  chars password = replicate (S n) c -> exact_entropy password = 0%R.
Proof.
  intros H. unfold exact_entropy.
  rewrite (calculate_entropy_repeated _ _ _ _ _ _ password c n H).
  assert (Hn : IZR (Z.of_nat (S n)) <> 0%R).
  { rewrite <- INR_IZR_INZ. apply not_0_INR. lia. }
  replace (IZR (Z.of_nat (S n)) / IZR (Z.of_nat (S n)))%R with 1%R
    by (field; exact Hn).
  unfold Rlog. rewrite ln_1. lra.
Qed.

Lemma exact_sum_distinct (l : list ascii) (len : Z) (e : R) :
  fold_left
    (entropy_step R (fun a b => (IZR a / IZR b)%R) Rmult Rminus (Rlog 2) len)
    (map (fun c => (c, 1%Z)) l) e
  = (e - INR (List.length l) * (1 / IZR len * Rlog 2 (1 / IZR len)))%R.
Proof.
  revert e. induction l as [| c l IH]; intros e.
  - simpl. lra.
  - cbn [map fold_left]. rewrite IH.
    change (List.length (c :: l)) with (S (List.length l)).
    rewrite S_INR. unfold entropy_step. simpl snd. lra.
Qed.

(** In exact arithmetic [n] pairwise distinct characters have entropy
    [log2 n]. *)
Lemma exact_entropy_distinct password :
  password <> "" -> NoDup (chars password) ->
  exact_entropy password = Rlog 2 (INR (String.length password)).
Proof.
  intros Hne Hnd. unfold exact_entropy, calculate_entropy.
  destruct password as [| c0 s0] eqn:Ep; [congruence |]. rewrite <- Ep in *.
  rewrite (count_chars_distinct password Hnd), exact_sum_distinct.
  rewrite length_chars, <- INR_IZR_INZ.
  assert (Hpos : (0 < INR (String.length password))%R).
  { apply lt_0_INR. rewrite Ep. simpl. lia. }
  set (n := INR (String.length password)) in *.
  replace (1 / n)%R with (/ n)%R by (field; lra).
  unfold Rlog. rewrite ln_Rinv by exact Hpos.
  assert (H2 : ln 2 <> 0%R).
  { pose proof ln_lt_2. lra. }
  field. split; [exact H2 | lra].
Qed.

End Frequencies.

(** * The statements of the specification *)

(** ** Password generator *)

(** C1. The specification and the docstring of [generate_random_password]
    promise a password without two equal adjacent characters. The list
    handed to the shuffle has the property, the shuffled password need not:
    with only the lowercase class, length 3 and the draws 0, 1, 0 the
    assembled list is [aba]; the shuffle then draws 1 below 3 and 1 below
    2, exchanges the last two characters and the call returns [aab]. *)
Theorem shuffle_reintroduces_adjacent_repeat :
  assemble (draws [0; 1; 0; 1; 1]) 3 3 true false false false false 0
    = Returns (chars "aba", 3) /\
  no_adjacent_repeat (chars "aba") /\
  generate_random_password (draws [0; 1; 0; 1; 1]) 3 3
    true false false false false 0 = Returns ("aab", 5) /\
  ~ no_adjacent_repeat (chars "aab").
Proof.
  split; [reflexivity |]. split.
  { apply no_adjacent_repeatb_sound. reflexivity. }
  split; [reflexivity |].
  intros H. apply no_adjacent_repeatb_complete in H. discriminate H.
Qed.

(** C2. For a valid configuration (length at least 1, a class selected,
    and with [require_each] a length of at least the number of selected
    classes) the call never raises; whenever it returns, the string has
    exactly [length] characters; and it does return, with such a string,
    as soon as the random source is never stuck on one value. *)
Theorem generate_random_password_length
  rnd length use_lower use_upper use_digits use_special require_each pos :
  valid_config length use_lower use_upper use_digits use_special
    require_each ->
  (forall fuel e,
     generate_random_password rnd fuel length use_lower use_upper
       use_digits use_special require_each pos <> Raises e) /\
  (forall fuel s pos',
     generate_random_password rnd fuel length use_lower use_upper
       use_digits use_special require_each pos = Returns (s, pos') ->
     Z.of_nat (String.length s) = length) /\
  (never_stuck rnd
     (String.length (alphabet use_lower use_upper use_digits use_special)) ->
   exists fuel0 s pos',
     Z.of_nat (String.length s) = length /\
     forall fuel, fuel0 <= fuel ->
       generate_random_password rnd fuel length use_lower use_upper
         use_digits use_special require_each pos = Returns (s, pos')).
Proof.
  intros Hv.
  assert (Hlen : forall fuel s pos',
     generate_random_password rnd fuel length use_lower use_upper
       use_digits use_special require_each pos = Returns (s, pos') ->
     Z.of_nat (String.length s) = length).
  { intros fuel s pos' H.
    apply generate_returns in H as (l & pos1 & Ha & P).
    apply assemble_returns in Ha as (_ & _ & _ & _ & _ & _ & <-).
    now rewrite <- length_chars, P. }
  split; [| split].
  - intros fuel e. now apply generate_valid_no_raise.
  - exact Hlen.
  - intros Hfair.
    destruct (generate_terminates rnd length use_lower use_upper use_digits
                use_special require_each pos Hv Hfair)
      as (fuel0 & s & pos' & H).
    exists fuel0, s, pos'. split; [| exact H].
    apply (Hlen fuel0 s pos'). now apply H.
Qed.

Lemma generate_random_password_length_witness :
  exists fuel0 s pos',
    Z.of_nat (String.length s) = 6%Z /\
    forall fuel, fuel0 <= fuel ->
      generate_random_password (fun i => i) fuel 6 true true true true true 0
      = Returns (s, pos').
Proof.
  apply (generate_random_password_length (fun i => i) 6
           true true true true true 0).
  - split; [lia |]. split; [reflexivity |]. intros _. simpl. lia.
  - apply never_stuck_count. vm_compute. lia.
Defined.

(** C3. With [require_each] the returned string holds at least one
    character of the pool of every selected class; and for a valid
    configuration and a random source that is never stuck, such a string
    is returned. *)
Theorem generate_random_password_covers
  rnd length use_lower use_upper use_digits use_special pos :
  valid_config length use_lower use_upper use_digits use_special true ->
  (forall fuel s pos',
     generate_random_password rnd fuel length use_lower use_upper
       use_digits use_special true pos = Returns (s, pos') ->
     covers s (selected_pools use_lower use_upper use_digits use_special)) /\
  (never_stuck rnd
     (String.length (alphabet use_lower use_upper use_digits use_special)) ->
   exists fuel s pos',
     generate_random_password rnd fuel length use_lower use_upper
       use_digits use_special true pos = Returns (s, pos') /\
     covers s (selected_pools use_lower use_upper use_digits use_special)).
Proof.
  intros Hv.
  assert (Hcov : forall fuel s pos',
     generate_random_password rnd fuel length use_lower use_upper
       use_digits use_special true pos = Returns (s, pos') ->
     covers s (selected_pools use_lower use_upper use_digits use_special)).
  { intros fuel s pos' H pool Hpool.
    apply generate_returns in H as (l & pos1 & Ha & P).
    apply assemble_returns in Ha as (seeded & ext & -> & Hs & _).
    simpl in Hs. apply list_elem_of_lookup_1 in Hpool as [i Hi].
    destruct (Forall2_lookup_r _ _ _ _ _ Hs Hi) as (c & Hc & Hin).
    exists c. split; [| exact Hin].
    rewrite P. apply elem_of_app. left.
    eapply list_elem_of_lookup_2. exact Hc. }
  split; [exact Hcov |].
  intros Hfair.
  destruct (generate_terminates rnd length use_lower use_upper use_digits
              use_special true pos Hv Hfair) as (fuel0 & s & pos' & H).
  exists fuel0, s, pos'. split; [now apply H |].
  apply (Hcov fuel0 s pos'). now apply H.
Qed.

Lemma generate_random_password_covers_witness :
  covers "Be$f2a" (selected_pools true true true true).
Proof.
  refine (proj1 (generate_random_password_covers (fun i => i) 6
                   true true true true 0 _) 100 "Be$f2a" 11 _).
  - split; [lia |]. split; [reflexivity |]. intros _. simpl. lia.
  - vm_compute. reflexivity.
Defined.

(** C4, as stated: with no class selected the call fails with the
    no-character-classes error for every length. It does not for a length
    below 1, where the length is checked first. *)
Lemma no_classes_error_not_for_length_zero :
  generate_random_password (draws []) 0 0 false false false false false 0
    = Raises (ValueError LengthBelowOne) /\
  generate_random_password (draws []) 0 0 false false false false false 0
    <> Raises (ValueError NoCharacterTypes).
Proof. split; [reflexivity | discriminate]. Qed.

(** C4, amended. With no class selected the call fails with the
    no-character-classes error for every length of at least 1; for a
    length below 1 it fails with the invalid-length error. *)
Theorem generate_random_password_no_classes
  rnd fuel length require_each pos :
  ((1 <= length)%Z ->
   generate_random_password rnd fuel length false false false false
     require_each pos = Raises (ValueError NoCharacterTypes)) /\
  ((length < 1)%Z ->
   generate_random_password rnd fuel length false false false false
     require_each pos = Raises (ValueError LengthBelowOne)).
Proof.
  unfold generate_random_password, assemble, Rand.bind, Rand.raise.
  destruct (Z.ltb_spec length 1); split; intros; (reflexivity || lia).
Qed.

Lemma generate_random_password_no_classes_witness :
  generate_random_password (fun i => i) 10 12 false false false false true 0
  = Raises (ValueError NoCharacterTypes).
Proof.
  apply (generate_random_password_no_classes (fun i => i) 10 12 true 0).
  lia.
Defined.

(** C7, as stated: with [require_each], a class selected and a length
    below the number of selected classes the call fails with the too-short
    error, lengths below 1 included. It does not for a length below 1,
    where the length is checked first. *)
Lemma too_short_error_not_for_length_zero :
  generate_random_password (draws []) 0 0 true false false false true 0
    = Raises (ValueError LengthBelowOne) /\
  (0 < Z.of_nat (List.length (selected_pools true false false false)))%Z /\
  forall categories,
    generate_random_password (draws []) 0 0 true false false false true 0
    <> Raises (ValueError (TooShortForCategories 0 categories)).
Proof. split; [reflexivity |]. split; [reflexivity | discriminate]. Qed.

(** C7, amended. With [require_each] and a length of at least 1 that is
    below the number of selected classes the call fails with the too-short
    error, which carries the length and the number of classes; for a
    length below 1 it fails with the invalid-length error. *)
Theorem generate_random_password_too_short
  rnd fuel length use_lower use_upper use_digits use_special pos :
  ((1 <= length)%Z ->
   (length < Z.of_nat (List.length
       (selected_pools use_lower use_upper use_digits use_special)))%Z ->
   generate_random_password rnd fuel length use_lower use_upper use_digits
     use_special true pos
   = Raises (ValueError (TooShortForCategories length
       (List.length
          (selected_pools use_lower use_upper use_digits use_special))))) /\
  ((length < 1)%Z ->
   generate_random_password rnd fuel length use_lower use_upper use_digits
     use_special true pos = Raises (ValueError LengthBelowOne)).
Proof.
  unfold generate_random_password, assemble, Rand.bind, Rand.raise.
  destruct (Z.ltb_spec length 1) as [Hlt | Hge]; split; intros;
    try reflexivity; try lia.
  destruct (selected_pools use_lower use_upper use_digits use_special)
    as [| p ps] eqn:Ep; [simpl in *; lia |].
  destruct (Z.ltb_spec length (Z.of_nat (List.length (p :: ps)))); [| lia].
  reflexivity.
Qed.

Lemma generate_random_password_too_short_witness :
  generate_random_password (fun i => i) 10 2 true true true true true 0
  = Raises (ValueError (TooShortForCategories 2 4)).
Proof.
  apply (generate_random_password_too_short (fun i => i) 10 2
           true true true true 0).
  - lia.
  - simpl. lia.
Defined.

(** C9. With [require_each], a class selected and a length equal to the
    number of selected classes, the call returns, whatever the random
    source and the budget of the loop, and the returned string is a
    permutation of one character of each selected pool. *)
Theorem generate_random_password_one_per_class
  rnd fuel length use_lower use_upper use_digits use_special pos :
  use_lower || use_upper || use_digits || use_special = true ->
  length = Z.of_nat (List.length
             (selected_pools use_lower use_upper use_digits use_special)) ->
  exists s pos' reps,
    generate_random_password rnd fuel length use_lower use_upper use_digits
      use_special true pos = Returns (s, pos') /\
    one_of_each reps
      (selected_pools use_lower use_upper use_digits use_special) /\
    chars s ≡ₚ reps.
Proof.
  intros Hsel Hlen.
  assert (Hv : valid_config length use_lower use_upper use_digits
                 use_special true).
  { split; [| split]; [| exact Hsel | intros _; lia].
    destruct (selected_pools use_lower use_upper use_digits use_special)
      as [| p ps] eqn:Ep; [| simpl in Hlen; lia].
    apply selected_pools_nil in Ep. congruence. }
  destruct (assemble_valid rnd length use_lower use_upper use_digits
              use_special true pos Hv)
    as (seeded & pos1 & Hs & Hle & E).
  simpl in Hs. pose proof (Forall2_length _ _ _ Hs) as Hl.
  assert (Ha : assemble rnd fuel length use_lower use_upper use_digits
                 use_special true pos = Returns (seeded, pos1)).
  { rewrite E, fill_unfold.
    destruct (Z.ltb_spec (Z.of_nat (List.length seeded)) length); [lia |].
    reflexivity. }
  destruct (generate_of_assemble rnd length use_lower use_upper use_digits
              use_special true fuel pos seeded pos1 Ha) as (s & pos' & Hg).
  exists s, pos', seeded. split; [exact Hg |]. split; [exact Hs |].
  apply generate_returns in Hg as (l & p & Ha' & P).
  rewrite Ha in Ha'. injection Ha' as <- <-. exact P.
Qed.

Lemma generate_random_password_one_per_class_witness :
  exists s pos' reps,
    generate_random_password (draws [3; 4]) 0 2 true false true false true 0
      = Returns (s, pos') /\
    one_of_each reps (selected_pools true false true false) /\
    chars s ≡ₚ reps.
Proof.
  apply (generate_random_password_one_per_class (draws [3; 4]) 0 2
           true false true false 0).
  - reflexivity.
  - reflexivity.
Defined.

(** C10. Before the shuffle the assembled list never has two equal adjacent
    characters: the four pools are pairwise disjoint; after any number of
    rounds of the seeding loop the seeded characters are adjacent-distinct;
    a round of the [while] loop keeps a list adjacent-distinct; and so is
    the list that reaches the shuffle. *)
Theorem assembled_no_adjacent_repeat rnd :
  pairwise_disjoint
    [Py.ascii_lowercase; Py.ascii_uppercase; Py.digits; special_characters] /\
  (forall use_lower use_upper use_digits use_special k pos l pos',
     seed_each rnd
       (take k (selected_pools use_lower use_upper use_digits use_special))
       [] pos = Returns (l, pos') ->
     no_adjacent_repeat l) /\
  (forall all_chars l pos l' pos',
     no_adjacent_repeat l ->
     fill_body rnd all_chars l pos = Returns (l', pos') ->
     no_adjacent_repeat l') /\
  (forall fuel length use_lower use_upper use_digits use_special require_each
          pos l pos',
     assemble rnd fuel length use_lower use_upper use_digits use_special
       require_each pos = Returns (l, pos') ->
     no_adjacent_repeat l).
Proof.
  split; [exact four_pools_disjoint |]. split; [| split].
  - intros ul uu ud us k pos l pos' H.
    set (pools := selected_pools ul uu ud us) in *.
    destruct (seed_each_returns rnd (take k pools) [] pos) as (reps & E & Hr).
    { apply Forall_take, selected_pools_nonempty. }
    rewrite E in H. injection H as <- _. simpl.
    apply NoDup_no_adjacent_repeat, (one_of_each_NoDup _ _ Hr).
    assert (Hd : pairwise_disjoint pools) by apply selected_pools_disjoint.
    clear -Hd. revert k. induction pools as [| p ps IH]; intros [| k];
      simpl; auto.
    destruct Hd as [Hp Hd]. split; [now apply Forall_take | now apply IH].
  - intros all_chars l pos l' pos'. apply fill_body_no_adjacent.
  - intros fuel length ul uu ud us re pos l pos' H.
    apply assemble_returns in H as (_ & _ & _ & _ & _ & H & _). exact H.
Qed.

Lemma assembled_no_adjacent_repeat_witness :
  no_adjacent_repeat (chars "aB2$ef").
Proof.
  refine (proj2 (proj2 (proj2 (assembled_no_adjacent_repeat (fun i => i))))
            100 6%Z true true true true true 0 (chars "aB2$ef") 6 _).
  vm_compute. reflexivity.
Defined.

(** ** Search space *)

(** C5. [calculate_search_space_size] returns 0 for an empty alphabet or
    a length of at most 0, and otherwise the exact integer power
    [len(all_chars) ** length]; an alphabet of 62 characters at length 8
    gives 218,340,105,584,896. *)
Theorem calculate_search_space_size_spec length all_chars :
  (all_chars = "" \/ (length <= 0)%Z ->
   calculate_search_space_size length all_chars = 0%Z) /\
  (all_chars <> "" -> (0 < length)%Z ->
   calculate_search_space_size length all_chars
   = (Z.of_nat (String.length all_chars) ^ length)%Z) /\
  (String.length all_chars = 62 ->
   calculate_search_space_size 8 all_chars = 218340105584896%Z).
Proof.
  unfold calculate_search_space_size. split; [| split].
  - intros [-> | Hle]; [reflexivity |].
    apply Z.leb_le in Hle. rewrite Hle. now rewrite orb_true_r.
  - intros Hne Hpos. destruct all_chars; [congruence |].
    destruct (Z.leb_spec length 0); [lia | reflexivity].
  - intros H62. destruct all_chars; [discriminate |].
    cbn [orb Z.leb Z.compare]. rewrite H62. reflexivity.
Qed.

Lemma calculate_search_space_size_spec_witness :
  calculate_search_space_size 8 (alphabet true true true false)
  = 218340105584896%Z.
Proof.
  apply (calculate_search_space_size_spec 8 (alphabet true true true false)).
  reflexivity.
Defined.

(** ** Yes/no prompts *)

(** C8. [get_bool_input] returns [True] on a yes-answer, [False] on a
    no-answer and the default of the prompt on every other line; the
    session asks the four class prompts with default [True] and the
    require-each prompt with default [False]. *)
Theorem get_bool_input_spec line default :
  (yes_answer line -> get_bool_input line default = true) /\
  (no_answer line -> get_bool_input line default = false) /\
  (~ yes_answer line -> ~ no_answer line ->
   get_bool_input line default = default) /\
  (forall l1 l2 l3 l4 l5,
     Forall (fun l => ~ yes_answer l /\ ~ no_answer l) [l1; l2; l3; l4; l5] ->
     main_read_flags l1 l2 l3 l4 l5 = mkFlags true true true true false).
Proof.
  split; [apply get_bool_input_true |].
  split; [apply get_bool_input_false |].
  split; [apply get_bool_input_default |].
  intros l1 l2 l3 l4 l5 H.
  apply Forall_cons in H as [[Y1 N1] H].
  apply Forall_cons in H as [[Y2 N2] H].
  apply Forall_cons in H as [[Y3 N3] H].
  apply Forall_cons in H as [[Y4 N4] H].
  apply Forall_cons in H as [[Y5 N5] _].
  unfold main_read_flags.
  rewrite (get_bool_input_default l1), (get_bool_input_default l2),
    (get_bool_input_default l3), (get_bool_input_default l4),
    (get_bool_input_default l5) by assumption.
  reflexivity.
Qed.

Lemma get_bool_input_spec_witness :
  get_bool_input "  YeS " false = true /\
  main_read_flags "" "?" "yep" "nope" "oui"
  = mkFlags true true true true false.
Proof.
  split.
  - apply (get_bool_input_spec "  YeS " false). right. reflexivity.
  - apply (get_bool_input_spec "" false).
    repeat constructor; intros [H | H]; discriminate H.
Defined.


(** * Further properties of the code *)

(** ** Password generator *)

Section GeneratorExtras.

Variable rnd : nat -> nat.
Variable length : Z.
Variables use_lower use_upper use_digits use_special require_each : bool.

Local Abbreviation pools :=
  (selected_pools use_lower use_upper use_digits use_special).
Local Abbreviation all_chars :=
  (alphabet use_lower use_upper use_digits use_special).

Lemma one_of_each_alphabet seeded :
  one_of_each seeded pools -> Forall (fun c => c ∈ chars all_chars) seeded.
Proof.
  intros H. apply Forall_forall. intros c Hc.
  apply list_elem_of_lookup_1 in Hc as [i Hi].
  destruct (Forall2_lookup_l _ _ _ _ _ H Hi) as (pool & Hp & Hin).
  apply all_chars_elem. exists pool. split; [| exact Hin].
  eapply list_elem_of_lookup_2. exact Hp.
Qed.

(** X1. Every character of a returned password belongs to the combined
    alphabet, that is to the pool of one of the selected classes. *)
Theorem generate_random_password_in_alphabet fuel pos s pos' :
  generate_random_password rnd fuel length use_lower use_upper use_digits
    use_special require_each pos = Returns (s, pos') ->
  forall c, c ∈ chars s ->
    c ∈ chars all_chars /\ exists pool, pool ∈ pools /\ c ∈ chars pool.
Proof.
  intros H c Hc.
  apply generate_returns in H as (l & pos1 & Ha & P).
  apply assemble_returns in Ha as (seeded & ext & -> & Hs & Hext & _).
  assert (Hin : c ∈ chars all_chars).
  { rewrite P in Hc. apply elem_of_app in Hc as [Hc | Hc].
    - unfold seeded_ok in Hs. destruct require_each.
      + apply one_of_each_alphabet in Hs.
        rewrite Forall_forall in Hs. now apply Hs.
      + subst seeded. now apply elem_of_nil in Hc.
    - rewrite Forall_forall in Hext. now apply Hext. }
  split; [exact Hin |]. now apply all_chars_elem.
Qed.

(** X2. The call raises exactly on an invalid configuration, and which
    error it raises is decided by the length and the flags alone, in this
    order: the length below 1, then no class selected, then the length
    below the number of selected classes when each class is required. It
    never raises anything else, whatever the random source. *)
Theorem generate_random_password_raises fuel pos e :
  generate_random_password rnd fuel length use_lower use_upper use_digits
    use_special require_each pos = Raises e <->
  ((length < 1)%Z /\ e = ValueError LengthBelowOne) \/
  ((1 <= length)%Z /\
   use_lower || use_upper || use_digits || use_special = false /\
   e = ValueError NoCharacterTypes) \/
  ((1 <= length)%Z /\
   use_lower || use_upper || use_digits || use_special = true /\
   require_each = true /\
   (length < Z.of_nat (List.length pools))%Z /\
   e = ValueError (TooShortForCategories length (List.length pools))).
Proof.
  destruct (Z.ltb_spec length 1) as [Hlt | Hge].
  { unfold generate_random_password, assemble, Rand.bind, Rand.raise.
    destruct (Z.ltb_spec length 1); [| lia]. split.
    - intros [= <-]. left. split; [lia | reflexivity].
    - intros [(_ & ->) | [(? & _) | (? & _)]]; (reflexivity || lia). }
  destruct (use_lower || use_upper || use_digits || use_special) eqn:Hsel.
  2:{ apply selected_pools_nil in Hsel.
      unfold generate_random_password, assemble, Rand.bind, Rand.raise.
      destruct (Z.ltb_spec length 1); [lia |]. rewrite Hsel. split.
      - intros [= <-]. right. left. auto.
      - intros [(? & _) | [(_ & _ & ->) | (_ & ? & _)]];
          (reflexivity || lia || discriminate). }
  destruct (Z.ltb_spec length (Z.of_nat (List.length pools)))
    as [Hshort | Hok]; [destruct require_each eqn:Hre |].
  - unfold generate_random_password, assemble, Rand.bind, Rand.raise.
    destruct (Z.ltb_spec length 1); [lia |].
    destruct pools as [| p ps] eqn:Ep; [simpl in Hshort; lia |].
    destruct (Z.ltb_spec length (Z.of_nat (List.length (p :: ps))));
      [| lia].
    cbn [andb]. split.
    + intros [= <-]. right. right. auto.
    + intros [(? & _) | [(_ & ? & _) | (_ & _ & _ & _ & ->)]];
        (reflexivity || lia || discriminate).
  - split.
    + intros H. exfalso. revert H. apply generate_valid_no_raise.
      split; [exact Hge |]. split; [exact Hsel |]. discriminate.
    + intros [(? & _) | [(_ & ? & _) | (_ & _ & ? & _)]];
        (lia || discriminate).
  - split.
    + intros H. exfalso. revert H. apply generate_valid_no_raise.
      split; [exact Hge |]. split; [exact Hsel |]. intros _. exact Hok.
    + intros [(? & _) | [(_ & ? & _) | (_ & _ & _ & ? & _)]];
        (lia || discriminate).
Qed.

(** X3. With [require_each], the list handed to the shuffle starts with
    one character of each selected pool, in pool order: its [i]-th
    character belongs to the [i]-th selected pool. Everything after these
    characters, and the whole list without [require_each], was drawn from
    the combined alphabet. *)
Theorem assemble_seeds_in_pool_order fuel pos l pos' :
  assemble rnd fuel length use_lower use_upper use_digits use_special
    require_each pos = Returns (l, pos') ->
  (require_each = true ->
   forall i pool, pools !! i = Some pool ->
     exists c, l !! i = Some c /\ c ∈ chars pool) /\
  (forall i c,
     (if require_each then List.length pools else 0) <= i ->
     l !! i = Some c -> c ∈ chars all_chars).
Proof.
  intros H.
  apply assemble_returns in H as (seeded & ext & -> & Hs & Hext & _).
  unfold seeded_ok in Hs. split.
  - intros ->. intros i pool Hi.
    destruct (Forall2_lookup_r _ _ _ _ _ Hs Hi) as (c & Hc & Hin).
    exists c. split; [| exact Hin]. now apply lookup_app_l_Some.
  - intros i c Hi Hc.
    assert (Hlen : List.length seeded <= i).
    { destruct require_each.
      - apply Forall2_length in Hs. lia.
      - subst seeded. simpl. lia. }
    rewrite lookup_app_r in Hc by exact Hlen.
    rewrite Forall_forall in Hext. apply Hext.
    eapply list_elem_of_lookup_2. exact Hc.
Qed.

(** X4. The call returns exactly when the assembly before the shuffle
    returns; the returned string is then a permutation of the assembled
    list, and the shuffle has taken one draw for each of its positions but
    the first. *)
Theorem generate_random_password_shuffles fuel pos :
  (forall s pos',
     generate_random_password rnd fuel length use_lower use_upper
       use_digits use_special require_each pos = Returns (s, pos') ->
     exists l pos1,
       assemble rnd fuel length use_lower use_upper use_digits use_special
         require_each pos = Returns (l, pos1) /\
       chars s ≡ₚ l /\ pos' = pos1 + (List.length l - 1)) /\
  (forall l pos1,
     assemble rnd fuel length use_lower use_upper use_digits use_special
       require_each pos = Returns (l, pos1) ->
     exists s,
       generate_random_password rnd fuel length use_lower use_upper
         use_digits use_special require_each pos
       = Returns (s, pos1 + (List.length l - 1)) /\
       chars s ≡ₚ l).
Proof.
  assert (Hfwd : forall l pos1,
     assemble rnd fuel length use_lower use_upper use_digits use_special
       require_each pos = Returns (l, pos1) ->
     exists s,
       generate_random_password rnd fuel length use_lower use_upper
         use_digits use_special require_each pos
       = Returns (s, pos1 + (List.length l - 1)) /\
       chars s ≡ₚ l).
  { intros l pos1 Ha.
    destruct (shuffle_returns rnd l pos1) as (x & Ex & Px).
    exists (string_of_list_ascii x). split.
    - unfold generate_random_password, Rand.bind. now rewrite Ha, Ex.
    - now rewrite list_ascii_of_string_of_list_ascii. }
  split; [| exact Hfwd].
  intros s pos' H.
  destruct (generate_returns _ _ _ _ _ _ _ _ _ _ _ H) as (l & pos1 & Ha & P).
  exists l, pos1. split; [exact Ha |]. split; [exact P |].
  destruct (Hfwd l pos1 Ha) as (s' & E & _).
  rewrite E in H. now injection H as _ <-.
Qed.

(** X5. A returned password of length 1 or 2 has no two equal adjacent
    characters: the shuffle can only bring equal characters together from
    length 3 on. *)
Theorem generate_random_password_short_no_repeat fuel pos s pos' :
  (length <= 2)%Z ->
  generate_random_password rnd fuel length use_lower use_upper use_digits
    use_special require_each pos = Returns (s, pos') ->
  no_adjacent_repeat (chars s).
Proof.
  intros Hlen H.
  apply generate_returns in H as (l & pos1 & Ha & P).
  apply assemble_returns in Ha as (_ & _ & _ & _ & _ & Hadj & Hl).
  destruct l as [| a [| b [| c l]]]; simpl in Hl; try lia.
  - apply Permutation_nil_r in P. rewrite P. apply no_adjacent_repeat_nil.
  - apply Permutation_sym, Permutation_length_1_inv in P. now rewrite P.
  - pose proof (Hadj 0 a b eq_refl eq_refl) as Hab.
    apply Ascii.eqb_neq in Hab.
    apply Permutation_sym, Permutation_length_2_inv in P as [-> | ->];
      apply no_adjacent_repeatb_sound; cbn;
      rewrite ?(Ascii.eqb_sym b a), Hab; reflexivity.
Qed.

(** X6. With [require_each] and a length equal to the number of selected
    classes, the characters of a returned password are pairwise distinct,
    so no two adjacent ones are equal. *)
Theorem generate_random_password_one_per_class_distinct fuel pos s pos' :
  require_each = true ->
  length = Z.of_nat (List.length pools) ->
  generate_random_password rnd fuel length use_lower use_upper use_digits
    use_special require_each pos = Returns (s, pos') ->
  NoDup (chars s) /\ no_adjacent_repeat (chars s).
Proof.
  intros Hre Hlen H.
  apply generate_returns in H as (l & pos1 & Ha & P).
  apply assemble_returns in Ha as (seeded & ext & -> & Hs & _ & _ & Hl).
  unfold seeded_ok in Hs. rewrite Hre in Hs.
  pose proof (Forall2_length _ _ _ Hs) as Hn.
  assert (ext = []) as ->.
  { rewrite length_app in Hl. destruct ext; [reflexivity | simpl in Hl; lia]. }
  rewrite app_nil_r in P.
  assert (Hnd : NoDup (chars s)).
  { rewrite P. apply (one_of_each_NoDup _ pools Hs).
    apply selected_pools_disjoint. }
  split; [exact Hnd | now apply NoDup_no_adjacent_repeat].
Qed.

End GeneratorExtras.

Lemma generate_random_password_in_alphabet_witness :
  "$"%char ∈ chars (alphabet true true true true) /\
  exists pool,
    pool ∈ selected_pools true true true true /\ "$"%char ∈ chars pool.
Proof.
  apply (generate_random_password_in_alphabet (fun i => i) 6
           true true true true true 100 0 "Be$f2a" 11).
  - vm_compute. reflexivity.
  - vm_compute. do 2 right. left.
Defined.

Lemma generate_random_password_raises_witness :
  generate_random_password (fun i => i) 10 0 true true false false false 0
  = Raises (ValueError LengthBelowOne).
Proof.
  apply (generate_random_password_raises (fun i => i) 0
           true true false false false 10 0).
  left. split; [lia | reflexivity].
Defined.

Lemma assemble_seeds_in_pool_order_witness :
  exists c, chars "aB2$ef" !! 2 = Some c /\ c ∈ chars Py.digits.
Proof.
  refine (proj1 (assemble_seeds_in_pool_order (fun i => i) 6
                   true true true true true 100 0 (chars "aB2$ef") 6 _)
            eq_refl 2 Py.digits eq_refl).
  vm_compute. reflexivity.
Defined.

Lemma generate_random_password_shuffles_witness :
  exists s,
    generate_random_password (fun i => i) 100 6 true true true true true 0
    = Returns (s, 6 + (List.length (chars "aB2$ef") - 1)) /\
    chars s ≡ₚ chars "aB2$ef".
Proof.
  apply (generate_random_password_shuffles (fun i => i) 6
           true true true true true 100 0).
  vm_compute. reflexivity.
Defined.

Lemma generate_random_password_short_no_repeat_witness :
  no_adjacent_repeat (chars "ba").
Proof.
  apply (generate_random_password_short_no_repeat (fun i => i) 2
           true false false false false 5 0 "ba" 3).
  - lia.
  - vm_compute. reflexivity.
Defined.

Lemma generate_random_password_one_per_class_distinct_witness :
  NoDup (chars "4d") /\ no_adjacent_repeat (chars "4d").
Proof.
  apply (generate_random_password_one_per_class_distinct (draws [3; 4]) 2
           true false true false true 0 0 "4d" 3).
  - reflexivity.
  - reflexivity.
  - vm_compute. reflexivity.
Defined.

(** ** Search space *)

(** X7. The search space is never negative, and it is positive exactly
    when the alphabet is not empty and the length is positive. *)
Theorem calculate_search_space_size_positive length all_chars :
  (0 <= calculate_search_space_size length all_chars)%Z /\
  ((0 < calculate_search_space_size length all_chars)%Z <->
   all_chars <> "" /\ (0 < length)%Z).
Proof.
  unfold calculate_search_space_size.
  destruct all_chars as [| c s]; cbn [orb].
  - split; [lia |]. split; [lia | intros [H _]; congruence].
  - destruct (Z.leb_spec length 0) as [Hle | Hgt].
    + split; [lia |]. split; [lia | intros [_ H]; lia].
    + assert (0 < Z.of_nat (String.length (String c s)) ^ length)%Z.
      { apply Z.pow_pos_nonneg; simpl; lia. }
      split; [lia |]. split; [intros _; split; [discriminate | lia] | lia].
Qed.

(** X8. At length 1 the search space is the size of the alphabet, and from
    there on each further character multiplies it by that size. *)
Theorem calculate_search_space_size_succ length all_chars :
  calculate_search_space_size 1 all_chars
    = Z.of_nat (String.length all_chars) /\
  ((1 <= length)%Z ->
   calculate_search_space_size (length + 1) all_chars
   = (Z.of_nat (String.length all_chars)
      * calculate_search_space_size length all_chars)%Z).
Proof.
  unfold calculate_search_space_size.
  destruct all_chars as [| c s]; cbn [orb].
  - split; [reflexivity | intros _; reflexivity].
  - split.
    + cbn [Z.leb Z.compare]. apply Z.pow_1_r.
    + intros Hlen.
      destruct (Z.leb_spec (length + 1) 0); [lia |].
      destruct (Z.leb_spec length 0); [lia |].
      rewrite Z.pow_add_r by lia. rewrite Z.pow_1_r. lia.
Qed.

Lemma calculate_search_space_size_succ_witness :
  calculate_search_space_size (8 + 1) Py.digits
  = (Z.of_nat (String.length Py.digits)
     * calculate_search_space_size 8 Py.digits)%Z.
Proof.
  apply (calculate_search_space_size_succ 8 Py.digits). lia.
Defined.

(** ** The session *)

Lemma main_all_chars_alphabet_eq f :
  main_all_chars f
  = alphabet (include_lower f) (include_upper f) (include_digits f)
      (include_special f).
Proof. destruct f as [[] [] [] [] re]; reflexivity. Qed.

(** X9. The alphabet [main] builds for the search space is the alphabet the
    generator draws from, and its size is 26 for the lowercase letters plus
    26 for the uppercase letters plus 10 for the digits plus 28 for the
    special characters, each counted when selected. *)
Theorem main_all_chars_alphabet f :
  main_all_chars f
  = alphabet (include_lower f) (include_upper f) (include_digits f)
      (include_special f) /\
  String.length (main_all_chars f)
  = (if include_lower f then 26 else 0)
    + (if include_upper f then 26 else 0)
    + (if include_digits f then 10 else 0)
    + (if include_special f then 28 else 0).
Proof.
  split; [apply main_all_chars_alphabet_eq |].
  destruct f as [[] [] [] [] re]; reflexivity.
Qed.

(** X10. After a successful generation the search space [main] computes at
    line 138 is the size of the generator's alphabet to the power of the
    length, and it is positive: the 0 that [calculate_search_space_size]
    returns for an empty alphabet or a length below 1 does not occur after
    a successful generation. What the prints of the lines that follow do
    with this number is not part of the statement. *)
Theorem main_search_space_after_generation rnd fuel length f pos s pos' :
  generate_random_password rnd fuel length (include_lower f)
    (include_upper f) (include_digits f) (include_special f)
    (flag_require_each f) pos = Returns (s, pos') ->
  main_search_space length f
  = (Z.of_nat (String.length
       (alphabet (include_lower f) (include_upper f) (include_digits f)
          (include_special f))) ^ length)%Z /\
  (0 < main_search_space length f)%Z.
Proof.
  intros H.
  apply generate_returns in H as (l & pos1 & Ha & _).
  assert (Hv : valid_config length (include_lower f) (include_upper f)
                 (include_digits f) (include_special f)
                 (flag_require_each f)).
  { apply (assemble_not_raised rnd _ _ _ _ _ _ fuel pos).
    intros e. rewrite Ha. discriminate. }
  destruct Hv as (Hlen & Hsel & _).
  unfold main_search_space.
  rewrite (main_all_chars_alphabet_eq f).
  assert (Hne : String.length
                  (alphabet (include_lower f) (include_upper f)
                     (include_digits f) (include_special f)) <> 0).
  { apply all_chars_nonempty. intros Hnil.
    apply selected_pools_nil in Hnil. congruence. }
  unfold calculate_search_space_size.
  destruct (alphabet _ _ _ _) as [| c a] eqn:Ea; [now destruct Hne |].
  cbn [orb]. destruct (Z.leb_spec length 0); [lia |].
  split; [reflexivity |]. apply Z.pow_pos_nonneg; simpl; lia.
Qed.

Lemma main_search_space_after_generation_witness :
  main_search_space 6 (mkFlags true true true true true)
  = (Z.of_nat (String.length (alphabet true true true true)) ^ 6)%Z /\
  (0 < main_search_space 6 (mkFlags true true true true true))%Z.
Proof.
  apply (main_search_space_after_generation (fun i => i) 100 6
           (mkFlags true true true true true) 0 "Be$f2a" 11).
  vm_compute. reflexivity.
Defined.

(** ** Letter case and white space *)

Section LetterCase.

(** Lowering a character gives a lowercase letter only for that letter
    and its capital: checked on all 256 characters. *)
Lemma lower_char_letters c :
  Ascii.eqb (Py.lower_char c) "e" = Ascii.eqb c "e" || Ascii.eqb c "E" /\
  Ascii.eqb (Py.lower_char c) "x" = Ascii.eqb c "x" || Ascii.eqb c "X" /\
  Ascii.eqb (Py.lower_char c) "i" = Ascii.eqb c "i" || Ascii.eqb c "I" /\
  Ascii.eqb (Py.lower_char c) "t" = Ascii.eqb c "t" || Ascii.eqb c "T" /\
  Ascii.eqb (Py.lower_char c) "y" = Ascii.eqb c "y" || Ascii.eqb c "Y" /\
  Ascii.eqb (Py.lower_char c) "s" = Ascii.eqb c "s" || Ascii.eqb c "S" /\
  Ascii.eqb (Py.lower_char c) "n" = Ascii.eqb c "n" || Ascii.eqb c "N" /\
  Ascii.eqb (Py.lower_char c) "o" = Ascii.eqb c "o" || Ascii.eqb c "O".
Proof.
  destruct c as [[] [] [] [] [] [] [] []]; vm_compute; repeat split.
Qed.

Lemma lower_char_is (c x X : ascii) :
  Ascii.eqb (Py.lower_char c) x = Ascii.eqb c x || Ascii.eqb c X ->
  Py.lower_char c = x <-> c = x \/ c = X.
Proof.
  intros H. rewrite <- Ascii.eqb_eq, H, orb_true_iff, !Ascii.eqb_eq.
  reflexivity.
Qed.

(** Lowering keeps white space white and nothing else. *)
Lemma is_space_lower_char c :
  Py.is_space (Py.lower_char c) = Py.is_space c.
Proof. destruct c as [[] [] [] [] [] [] [] []]; reflexivity. Qed.

Lemma lower_empty s : Py.lower s = "" <-> s = "".
Proof. destruct s; simpl; split; (reflexivity || discriminate). Qed.

Lemma lower_cons s c t :
  Py.lower s = String c t <->
  exists c' t', s = String c' t' /\ Py.lower_char c' = c /\ Py.lower t' = t.
Proof.
  destruct s as [| c' t']; simpl; split.
  - discriminate.
  - intros (? & ? & ? & _). discriminate.
  - intros [= <- <-]. eauto.
  - intros (? & ? & [= <- <-] & <- & <-). reflexivity.
Qed.

End LetterCase.

(** X11. The session ends exactly on the four letters [exit], each in
    either letter case, with nothing before or after them: the answer is
    not stripped, so surrounding white space keeps the session going. *)
Theorem main_exits_iff user_choice :
  main_exits user_choice = true <->
  exists c1 c2 c3 c4 : ascii,
    user_choice = String c1 (String c2 (String c3 (String c4 ""))) /\
    (c1 = "e" \/ c1 = "E")%char /\ (c2 = "x" \/ c2 = "X")%char /\
    (c3 = "i" \/ c3 = "I")%char /\ (c4 = "t" \/ c4 = "T")%char.
Proof.
  unfold main_exits. rewrite String.eqb_eq. split.
  - intros H.
    apply lower_cons in H as (c1 & s1 & -> & H1 & H).
    apply lower_cons in H as (c2 & s2 & -> & H2 & H).
    apply lower_cons in H as (c3 & s3 & -> & H3 & H).
    apply lower_cons in H as (c4 & s4 & -> & H4 & H).
    apply lower_empty in H as ->.
    exists c1, c2, c3, c4. split; [reflexivity |].
    pose proof (lower_char_letters c1) as (E1 & _).
    pose proof (lower_char_letters c2) as (_ & E2 & _).
    pose proof (lower_char_letters c3) as (_ & _ & E3 & _).
    pose proof (lower_char_letters c4) as (_ & _ & _ & E4 & _).
    apply (lower_char_is _ _ _ E1) in H1.
    apply (lower_char_is _ _ _ E2) in H2.
    apply (lower_char_is _ _ _ E3) in H3.
    apply (lower_char_is _ _ _ E4) in H4.
    auto.
  - intros (c1 & c2 & c3 & c4 & -> & H1 & H2 & H3 & H4).
    destruct H1 as [-> | ->], H2 as [-> | ->], H3 as [-> | ->],
      H4 as [-> | ->]; reflexivity.
Qed.

Lemma main_exits_iff_witness : main_exits "ExIt" = true.
Proof.
  apply (main_exits_iff "ExIt").
  exists "E"%char, "x"%char, "I"%char, "t"%char. auto 10.
Defined.

(** ** Yes/no prompts: white space and letter case *)

Section Strip.

Lemma append_cons c s t : String c s +:+ t = String c (s +:+ t).
Proof. reflexivity. Qed.

Lemma blank_cons c s :
  blank (String c s) = true <-> Py.is_space c = true /\ blank s = true.
Proof. unfold blank. simpl. apply andb_true_iff. Qed.

Lemma lstrip_blank s : blank s = true -> Py.lstrip s = "".
Proof.
  induction s as [| c s IH]; [reflexivity |].
  intros H. apply blank_cons in H as [Hc Hs]. simpl. now rewrite Hc, IH.
Qed.

Lemma lstrip_app_blank pre s :
  blank pre = true -> Py.lstrip (pre +:+ s) = Py.lstrip s.
Proof.
  induction pre as [| c pre IH]; [reflexivity |].
  intros H. apply blank_cons in H as [Hc Hs].
  rewrite append_cons. simpl. now rewrite Hc, IH.
Qed.

Lemma lstrip_app s t :
  Py.lstrip s <> "" -> Py.lstrip (s +:+ t) = Py.lstrip s +:+ t.
Proof.
  induction s as [| c s IH]; [simpl; congruence |].
  rewrite append_cons. simpl.
  destruct (Py.is_space c); [exact IH | reflexivity].
Qed.

Lemma lstrip_empty_blank s : Py.lstrip s = "" -> blank s = true.
Proof.
  induction s as [| c s IH]; [reflexivity |]. simpl.
  destruct (Py.is_space c) eqn:Hc; [| discriminate].
  intros H. apply blank_cons. auto.
Qed.

Lemma rstrip_blank s : blank s = true -> Py.rstrip s = "".
Proof.
  induction s as [| c s IH]; [reflexivity |].
  intros H. apply blank_cons in H as [Hc Hs]. simpl. now rewrite IH, Hc.
Qed.

Lemma rstrip_app_blank s post :
  blank post = true -> Py.rstrip (s +:+ post) = Py.rstrip s.
Proof.
  intros H. induction s as [| c s IH].
  - now apply rstrip_blank.
  - rewrite append_cons. simpl. now rewrite IH.
Qed.

(** White space around a line does not change what [strip] returns. *)
Lemma strip_pad pre s post :
  blank pre = true -> blank post = true ->
  Py.strip (pre +:+ s +:+ post) = Py.strip s.
Proof.
  intros Hpre Hpost. unfold Py.strip. rewrite lstrip_app_blank by exact Hpre.
  destruct (Py.lstrip s) as [| c r] eqn:E.
  - apply lstrip_empty_blank in E.
    rewrite lstrip_app_blank by exact E.
    now rewrite lstrip_blank.
  - rewrite lstrip_app by (rewrite E; discriminate).
    rewrite E. now apply rstrip_app_blank.
Qed.

Lemma lower_lstrip s : Py.lower (Py.lstrip s) = Py.lstrip (Py.lower s).
Proof.
  induction s as [| c s IH]; [reflexivity |]. simpl.
  rewrite is_space_lower_char.
  destruct (Py.is_space c); [exact IH | reflexivity].
Qed.

Lemma lower_rstrip s : Py.lower (Py.rstrip s) = Py.rstrip (Py.lower s).
Proof.
  induction s as [| c s IH]; [reflexivity |]. simpl.
  rewrite <- IH, is_space_lower_char.
  destruct (Py.rstrip s) as [| a r]; simpl.
  - now destruct (Py.is_space c).
  - reflexivity.
Qed.

Lemma lower_strip s : Py.lower (Py.strip s) = Py.strip (Py.lower s).
Proof. unfold Py.strip. now rewrite lower_rstrip, lower_lstrip. Qed.

End Strip.

(** X12. White space before and after an answer does not change what
    [get_bool_input] returns. *)
Theorem get_bool_input_ignores_padding pre line post default :
  blank pre = true -> blank post = true ->
  get_bool_input (pre +:+ line +:+ post) default
  = get_bool_input line default.
Proof.
  intros Hpre Hpost. unfold get_bool_input.
  now rewrite strip_pad.
Qed.

Lemma get_bool_input_ignores_padding_witness :
  get_bool_input (" " +:+ "No" +:+ "  ") true = get_bool_input "No" true.
Proof.
  apply (get_bool_input_ignores_padding " " "No" "  " true); reflexivity.
Defined.

(** X13. Two answers that differ only in the case of their letters get the
    same result from [get_bool_input]. *)
Theorem get_bool_input_ignores_case line1 line2 default :
  Py.lower line1 = Py.lower line2 ->
  get_bool_input line1 default = get_bool_input line2 default.
Proof.
  intros H. unfold get_bool_input.
  now rewrite !lower_strip, H.
Qed.

Lemma get_bool_input_ignores_case_witness :
  get_bool_input " yEs" false = get_bool_input " YES" false.
Proof.
  apply (get_bool_input_ignores_case " yEs" " YES" false). reflexivity.
Defined.

(** X14. An empty line, or a line of white space only, gets the default of
    the prompt. *)
Theorem get_bool_input_blank line default :
  blank line = true -> get_bool_input line default = default.
Proof.
  intros H. unfold get_bool_input, Py.strip.
  rewrite (lstrip_blank line H). reflexivity.
Qed.

Lemma get_bool_input_blank_witness : get_bool_input "   " true = true.
Proof. apply (get_bool_input_blank "   " true). reflexivity. Defined.

(** X15. With default [False] the result is [True] only for the ten
    spellings of [y] and [yes]; with default [True] it is [False] only for
    the six spellings of [n] and [no]; in both cases after the surrounding
    white space is removed. *)
Theorem get_bool_input_spellings line :
  (get_bool_input line false = true <->
   Py.strip line ∈ ["y"; "Y"; "yes"; "yeS"; "yEs"; "yES";
                    "Yes"; "YeS"; "YEs"; "YES"]) /\
  (get_bool_input line true = false <->
   Py.strip line ∈ ["n"; "N"; "no"; "nO"; "No"; "NO"]).
Proof.
  assert (Hy : Py.contains ["y"; "yes"] (Py.lower (Py.strip line)) = true <->
               Py.strip line ∈ ["y"; "Y"; "yes"; "yeS"; "yEs"; "yES";
                                "Yes"; "YeS"; "YEs"; "YES"]).
  { rewrite contains_yes, list_elem_of_In. split.
    - intros [H | H].
      + apply lower_cons in H as (c1 & s1 & -> & H1 & H).
        apply lower_empty in H as ->.
        pose proof (lower_char_letters c1) as (_ & _ & _ & _ & E1 & _).
        apply (lower_char_is _ _ _ E1) in H1 as [-> | ->]; simpl; auto.
      + apply lower_cons in H as (c1 & s1 & -> & H1 & H).
        apply lower_cons in H as (c2 & s2 & -> & H2 & H).
        apply lower_cons in H as (c3 & s3 & -> & H3 & H).
        apply lower_empty in H as ->.
        pose proof (lower_char_letters c1) as (_ & _ & _ & _ & E1 & _).
        pose proof (lower_char_letters c2) as (E2 & _).
        pose proof (lower_char_letters c3) as (_ & _ & _ & _ & _ & E3 & _).
        apply (lower_char_is _ _ _ E1) in H1 as [-> | ->];
          apply (lower_char_is _ _ _ E2) in H2 as [-> | ->];
          apply (lower_char_is _ _ _ E3) in H3 as [-> | ->];
          simpl; auto 12.
    - simpl. intros H.
      repeat (destruct H as [<- | H]; [auto |]). contradiction. }
  assert (Hn : Py.contains ["n"; "no"] (Py.lower (Py.strip line)) = true <->
               Py.strip line ∈ ["n"; "N"; "no"; "nO"; "No"; "NO"]).
  { rewrite contains_no, list_elem_of_In. split.
    - intros [H | H].
      + apply lower_cons in H as (c1 & s1 & -> & H1 & H).
        apply lower_empty in H as ->.
        pose proof (lower_char_letters c1)
          as (_ & _ & _ & _ & _ & _ & E1 & _).
        apply (lower_char_is _ _ _ E1) in H1 as [-> | ->]; simpl; auto.
      + apply lower_cons in H as (c1 & s1 & -> & H1 & H).
        apply lower_cons in H as (c2 & s2 & -> & H2 & H).
        apply lower_empty in H as ->.
        pose proof (lower_char_letters c1)
          as (_ & _ & _ & _ & _ & _ & E1 & _).
        pose proof (lower_char_letters c2)
          as (_ & _ & _ & _ & _ & _ & _ & E2).
        apply (lower_char_is _ _ _ E1) in H1 as [-> | ->];
          apply (lower_char_is _ _ _ E2) in H2 as [-> | ->];
          simpl; auto 8.
    - simpl. intros H.
      repeat (destruct H as [<- | H]; [auto |]). contradiction. }
  rewrite <- Hy, <- Hn. unfold get_bool_input.
  destruct (Py.contains ["y"; "yes"] _) eqn:Ey.
  - split; [tauto |]. split; [discriminate |].
    intros En. apply contains_yes in Ey. apply contains_no in En.
    destruct Ey as [Ey | Ey], En as [En | En]; rewrite Ey in En;
      discriminate.
  - destruct (Py.contains ["n"; "no"] _); split; split;
      (reflexivity || discriminate || tauto).
Qed.

Lemma get_bool_input_spellings_witness :
  get_bool_input "  yEs " false = true.
Proof.
  apply (get_bool_input_spellings "  yEs ").
  vm_compute. do 4 right. left.
Defined.

(** ** The frequency table of [calculate_entropy] *)

Section Table.

Local Abbreviation step :=
  (fun (freq : list (ascii * Z)) (char : ascii) =>
     dict_set freq char (dict_get freq char 0 + 1)%Z).

Local Abbreviation total := (fun freq : list (ascii * Z) =>
  foldr Z.add 0%Z freq.*2).

Lemma dict_set_keys (freq : list (ascii * Z)) c v :
  (dict_set freq c v).*1
  = if bool_decide (c ∈ freq.*1) then freq.*1 else freq.*1 ++ [c].
Proof.
  induction freq as [| [k w] freq IH]; [reflexivity |].
  cbn [dict_set fmap list_fmap fst].
  destruct (Ascii.eqb_spec c k) as [-> | Hne].
  - rewrite bool_decide_eq_true_2 by left. reflexivity.
  - cbn [fmap list_fmap fst]. rewrite IH.
    destruct (bool_decide (c ∈ freq.*1)) eqn:E.
    + apply bool_decide_eq_true in E.
      rewrite bool_decide_eq_true_2 by now right. reflexivity.
    + apply bool_decide_eq_false in E.
      rewrite bool_decide_eq_false_2; [reflexivity |].
      intros H. apply elem_of_cons in H as [H | H]; auto.
Qed.

Lemma step_total (freq : list (ascii * Z)) c :
  total (dict_set freq c (dict_get freq c 0 + 1)%Z) = (total freq + 1)%Z.
Proof.
  induction freq as [| [k w] freq IH]; [reflexivity |].
  cbn [dict_set dict_get].
  destruct (Ascii.eqb c k).
  - cbn [fmap list_fmap snd foldr]. lia.
  - cbn [fmap list_fmap snd foldr] in *. rewrite IH. lia.
Qed.

Lemma step_positive (freq : list (ascii * Z)) c :
  Forall (fun kv => (1 <= kv.2)%Z) freq ->
  Forall (fun kv => (1 <= kv.2)%Z) (dict_set freq c (dict_get freq c 0 + 1)%Z).
Proof.
  induction freq as [| [k w] freq IH]; intros H.
  - constructor; [simpl; lia | constructor].
  - apply Forall_cons in H as [Hw H]. cbn [dict_set dict_get].
    destruct (Ascii.eqb c k); constructor; simpl in *; auto; lia.
Qed.

Lemma step_NoDup (freq : list (ascii * Z)) c :
  NoDup freq.*1 -> NoDup (dict_set freq c (dict_get freq c 0 + 1)%Z).*1.
Proof.
  intros H. rewrite dict_set_keys.
  destruct (bool_decide (c ∈ freq.*1)) eqn:E; [exact H |].
  apply bool_decide_eq_false in E.
  apply NoDup_app. split; [exact H |]. split.
  - intros x Hx Hc. apply list_elem_of_singleton in Hc as ->. auto.
  - apply NoDup_singleton.
Qed.

Lemma step_elem (freq : list (ascii * Z)) c x :
  x ∈ (dict_set freq c (dict_get freq c 0 + 1)%Z).*1
  <-> x ∈ freq.*1 \/ x = c.
Proof.
  rewrite dict_set_keys.
  destruct (bool_decide (c ∈ freq.*1)) eqn:E.
  - apply bool_decide_eq_true in E. split; [auto |].
    intros [H | ->]; assumption.
  - rewrite elem_of_app, list_elem_of_singleton. reflexivity.
Qed.

Lemma fold_step_invariants (l : list ascii) : forall freq,
  NoDup freq.*1 ->
  Forall (fun kv => (1 <= kv.2)%Z) freq ->
  NoDup (fold_left step l freq).*1 /\
  Forall (fun kv => (1 <= kv.2)%Z) (fold_left step l freq) /\
  total (fold_left step l freq) = (total freq + Z.of_nat (List.length l))%Z /\
  forall x, x ∈ (fold_left step l freq).*1 <-> x ∈ freq.*1 \/ x ∈ l.
Proof.
  induction l as [| c l IH]; intros freq Hnd Hpos.
  - simpl. split; [exact Hnd |]. split; [exact Hpos |]. split; [lia |].
    intros x. rewrite elem_of_nil. tauto.
  - cbn [fold_left].
    destruct (IH (dict_set freq c (dict_get freq c 0 + 1)%Z)
                (step_NoDup _ _ Hnd) (step_positive _ _ Hpos))
      as (H1 & H2 & H3 & H4).
    split; [exact H1 |]. split; [exact H2 |]. split.
    + rewrite H3, step_total. simpl List.length. lia.
    + intros x. rewrite H4, step_elem, elem_of_cons. tauto.
Qed.

End Table.

(** X16. The frequency table holds for every character the number of
    times it occurs in the password, and 0, the default of [freq.get], for
    a character that does not occur. *)
Theorem count_chars_occurrences password c :
  dict_get (count_chars password) c 0 = Z.of_nat (occurrences c password) /\
  (c ∉ chars password -> dict_get (count_chars password) c 0 = 0%Z).
Proof.
  split; [apply count_chars_get |].
  intros H. rewrite count_chars_get.
  destruct (filter (fun x => x = c) (chars password)) as [| x l] eqn:E;
    [reflexivity |].
  assert (Hx : x ∈ filter (fun x => x = c) (chars password))
    by (rewrite E; left).
  apply list_elem_of_filter in Hx as [-> Hx]. contradiction.
Qed.

Lemma count_chars_occurrences_witness :
  dict_get (count_chars "banana") "z" 0 = 0%Z.
Proof.
  apply (count_chars_occurrences "banana" "z").
  intros H. apply list_elem_of_In in H. simpl in H.
  repeat (destruct H as [H | H]; [discriminate H |]). exact H.
Defined.

(** X17. The frequency table has one entry for each distinct character of
    the password and for no other character, every count is at least 1,
    and the counts add up to the length of the password. *)
Theorem count_chars_table password :
  NoDup (count_chars password).*1 /\
  (forall c, c ∈ (count_chars password).*1 <-> c ∈ chars password) /\
  Forall (fun kv => (1 <= kv.2)%Z) (count_chars password) /\
  foldr Z.add 0%Z (count_chars password).*2
  = Z.of_nat (String.length password).
Proof.
  unfold count_chars.
  destruct (fold_step_invariants (chars password) [])
    as (H1 & H2 & H3 & H4); [constructor | constructor |].
  split; [exact H1 |]. split; [| split; [exact H2 |]].
  - intros c. rewrite H4. simpl. rewrite elem_of_nil. tauto.
  - rewrite H3, length_chars. simpl. lia.
Qed.

(** X18. The entries of the frequency table are in the order in which the
    characters first occur: a character seen before keeps its place, a new
    one goes to the end. This is the order in which [calculate_entropy]
    adds up the terms. *)
Theorem count_chars_first_occurrence_order password c :
  (count_chars (password +:+ String c "")).*1
  = (count_chars password).*1
    ++ (if bool_decide (c ∈ chars password) then [] else [c]).
Proof.
  unfold count_chars. rewrite chars_append. simpl chars.
  rewrite fold_left_app. cbn [fold_left]. rewrite dict_set_keys.
  destruct (fold_step_invariants (chars password) [])
    as (_ & _ & _ & H4); [constructor | constructor |].
  rewrite (bool_decide_ext _ (c ∈ chars password)).
  - destruct (bool_decide (c ∈ chars password));
      [now rewrite app_nil_r | reflexivity].
  - rewrite H4. simpl. rewrite elem_of_nil. tauto.
Qed.

(** ** The entropy for every floating-point arithmetic *)

Section EntropyTerms.

Variable float : Type.
Variable zero : float.
Variable true_div : Z -> Z -> float.
Variable mul sub : float -> float -> float.
Variable log2 : float -> float.

Local Abbreviation term_step :=
  (entropy_step float true_div mul sub log2).

(** The sum only reads the counts of the table, not its characters. *)
Lemma entropy_fold_counts len (freq1 freq2 : list (ascii * Z)) : forall e,
  freq1.*2 = freq2.*2 ->
  fold_left (term_step len) freq1 e = fold_left (term_step len) freq2 e.
Proof.
  revert freq2. induction freq1 as [| [k1 v1] freq1 IH];
    intros [| [k2 v2] freq2] e H; try discriminate H; [reflexivity |].
  injection H as -> H. cbn [fold_left]. unfold entropy_step at 2 4.
  simpl snd. now apply IH.
Qed.

Lemma entropy_fold_distinct len (l : list ascii) : forall e,
  fold_left (term_step len) (map (fun c => (c, 1%Z)) l) e
  = Nat.iter (List.length l)
      (fun e => sub e (mul (true_div 1 len) (log2 (true_div 1 len)))) e.
Proof.
  induction l as [| c l IH]; intros e; [reflexivity |].
  cbn [map fold_left List.length]. rewrite IH.
  set (g := fun e0 =>
              sub e0 (mul (true_div 1 len) (log2 (true_div 1 len)))).
  change (Nat.iter (List.length l) g (g e)
          = g (Nat.iter (List.length l) g e)).
  apply Nat.iter_swap.
Qed.

(** X19. For a password of [n] pairwise distinct characters, whatever the
    floating-point arithmetic, the result is [0.0] from which the same
    term [p * log2(p)] with [p = 1 / n] has been subtracted [n] times, one
    subtraction after the other. *)
Theorem calculate_entropy_distinct_terms password :
  password <> "" -> NoDup (chars password) ->
  calculate_entropy float zero true_div mul sub log2 password
  = Nat.iter (String.length password)
      (fun e =>
         sub e (mul (true_div 1 (Z.of_nat (String.length password)))
                    (log2 (true_div 1 (Z.of_nat (String.length password))))))
      zero.
Proof.
  intros Hne Hnd. unfold calculate_entropy.
  destruct password as [| c0 s0] eqn:Ep; [congruence |]. rewrite <- Ep in *.
  rewrite (count_chars_distinct password Hnd), entropy_fold_distinct.
  now rewrite length_chars.
Qed.

(** X20. For a password of [n] identical characters, whatever the
    floating-point arithmetic, the result is [0.0 - p * log2(p)] with
    [p = n / n]: one term, whatever the length. *)
Theorem calculate_entropy_identical_term password c n :
  chars password = replicate (S n) c ->
  calculate_entropy float zero true_div mul sub log2 password
  = sub zero (mul (true_div (Z.of_nat (S n)) (Z.of_nat (S n)))
                  (log2 (true_div (Z.of_nat (S n)) (Z.of_nat (S n))))).
Proof. apply calculate_entropy_repeated. Qed.

Section Renaming.

Variable f : ascii -> ascii.
Variable dom : list ascii.
Hypothesis f_inj : forall x y, x ∈ dom -> y ∈ dom -> f x = f y -> x = y.

Local Abbreviation rename :=
  (fmap (M := list) (fun kv : ascii * Z => (f kv.1, kv.2))).

Lemma dict_get_rename (freq : list (ascii * Z)) c d :
  c ∈ dom -> Forall (fun k => k ∈ dom) freq.*1 ->
  dict_get (rename freq) (f c) d = dict_get freq c d.
Proof.
  intros Hc. induction freq as [| [k v] freq IH]; intros H;
    [reflexivity |].
  cbn [fmap list_fmap fst] in H. apply Forall_cons in H as [Hk H].
  cbn [fmap list_fmap dict_get fst snd].
  destruct (Ascii.eqb_spec c k) as [-> | Hne].
  - now rewrite Ascii.eqb_refl.
  - destruct (Ascii.eqb_spec (f c) (f k)) as [E | _]; [| now apply IH].
    destruct Hne. now apply f_inj.
Qed.

Lemma dict_set_rename (freq : list (ascii * Z)) c v :
  c ∈ dom -> Forall (fun k => k ∈ dom) freq.*1 ->
  dict_set (rename freq) (f c) v = rename (dict_set freq c v).
Proof.
  intros Hc. induction freq as [| [k w] freq IH]; intros H;
    [reflexivity |].
  cbn [fmap list_fmap fst] in H. apply Forall_cons in H as [Hk H].
  cbn [fmap list_fmap dict_set fst snd].
  destruct (Ascii.eqb_spec c k) as [-> | Hne].
  - now rewrite Ascii.eqb_refl.
  - destruct (Ascii.eqb_spec (f c) (f k)) as [E | _].
    + destruct Hne. now apply f_inj.
    + cbn [fmap list_fmap fst snd]. now rewrite IH.
Qed.

Lemma count_rename (l : list ascii) : forall freq,
  Forall (fun c => c ∈ dom) l -> Forall (fun k => k ∈ dom) freq.*1 ->
  fold_left
    (fun freq char => dict_set freq char (dict_get freq char 0 + 1)%Z)
    (f <$> l) (rename freq)
  = rename
      (fold_left
         (fun freq char => dict_set freq char (dict_get freq char 0 + 1)%Z)
         l freq).
Proof.
  induction l as [| c l IH]; intros freq Hl Hfreq; [reflexivity |].
  apply Forall_cons in Hl as [Hc Hl].
  cbn [fmap list_fmap fold_left].
  rewrite dict_get_rename, dict_set_rename by assumption.
  apply IH; [exact Hl |].
  apply Forall_forall. intros x Hx. apply step_elem in Hx as [Hx | ->].
  - rewrite Forall_forall in Hfreq. now apply Hfreq.
  - exact Hc.
Qed.

End Renaming.

(** X21. Whatever the floating-point arithmetic, the result depends on the
    pattern of repetitions only, not on which characters occur: replacing
    the characters of a password through a substitution that sends
    different characters of the password to different characters leaves
    the result unchanged. *)
Theorem calculate_entropy_renaming (f : ascii -> ascii) password renamed :
  (forall x y, x ∈ chars password -> y ∈ chars password ->
     f x = f y -> x = y) ->
  chars renamed = f <$> chars password ->
  calculate_entropy float zero true_div mul sub log2 renamed
  = calculate_entropy float zero true_div mul sub log2 password.
Proof.
  intros Hinj Hren. unfold calculate_entropy.
  assert (Hlen : String.length renamed = String.length password).
  { now rewrite <- !length_chars, Hren, length_fmap. }
  destruct password as [| c0 s0] eqn:Ep.
  { destruct renamed; [reflexivity | discriminate Hlen]. }
  destruct renamed as [| c1 s1] eqn:Er; [discriminate Hlen |].
  rewrite <- Ep, <- Er in *. rewrite Hlen.
  apply entropy_fold_counts. unfold count_chars. rewrite Hren.
  pose proof (count_rename f (chars password) Hinj (chars password) []) as Hc.
  transitivity
    ((fun kv : ascii * Z => (f kv.1, kv.2)) <$> count_chars password).*2.
  - f_equal. apply Hc; [apply Forall_forall; auto | constructor].
  - rewrite <- list_fmap_compose. apply list_fmap_ext.
    intros i [k v] _. reflexivity.
Qed.

End EntropyTerms.

Lemma calculate_entropy_distinct_terms_witness :
  calculate_entropy Z 0%Z Z.div Z.mul Z.sub Z.log2 "abc"
  = Nat.iter 3
      (fun e => (e - (1 / 3) * Z.log2 (1 / 3))%Z) 0%Z.
Proof.
  apply (calculate_entropy_distinct_terms Z 0%Z Z.div Z.mul Z.sub Z.log2
           "abc").
  - discriminate.
  - apply nodupb_sound. reflexivity.
Defined.

Lemma calculate_entropy_identical_term_witness :
  calculate_entropy Z 0%Z Z.div Z.mul Z.sub Z.log2 "aaa"
  = (0 - (3 / 3) * Z.log2 (3 / 3))%Z.
Proof.
  apply (calculate_entropy_identical_term Z 0%Z Z.div Z.mul Z.sub Z.log2
           "aaa" "a" 2).
  reflexivity.
Defined.

Lemma calculate_entropy_renaming_witness :
  calculate_entropy Z 0%Z Z.div Z.mul Z.sub Z.log2 "xyyx"
  = calculate_entropy Z 0%Z Z.div Z.mul Z.sub Z.log2 "abba".
Proof.
  apply (calculate_entropy_renaming Z 0%Z Z.div Z.mul Z.sub Z.log2
           (fun c => if Ascii.eqb c "a" then "x"%char
                     else if Ascii.eqb c "b" then "y"%char else c)).
  - intros x y Hx Hy.
    apply list_elem_of_In in Hx. apply list_elem_of_In in Hy.
    simpl in Hx, Hy.
    repeat (destruct Hx as [<- | Hx]); try contradiction;
      repeat (destruct Hy as [<- | Hy]); try contradiction;
      simpl; intros H; (reflexivity || discriminate H).
  - reflexivity.
Defined.

Lemma calculate_search_space_size_positive_witness :
  (0 < calculate_search_space_size 8 Py.digits)%Z.
Proof.
  apply (calculate_search_space_size_positive 8 Py.digits).
  split; [discriminate | lia].
Defined.


(** ** Which passwords can be generated *)

Section Reachable.

Lemma index_of_lookup c (l : list ascii) :
  c ∈ l -> l !! index_of c l = Some c /\ index_of c l < List.length l.
Proof.
  induction l as [| x l IH]; intros H; [now apply elem_of_nil in H |].
  simpl. destruct (Ascii.eqb_spec c x) as [-> | Hne].
  - split; [reflexivity | lia].
  - apply elem_of_cons in H as [H | H]; [congruence |].
    destruct (IH H) as [H1 H2]. split; [exact H1 | lia].
Qed.

Lemma swap_same (x : list ascii) i pos :
  i < List.length x -> Rand.swap x i i pos = Returns (x, pos).
Proof.
  intros Hi. unfold Rand.swap.
  destruct (lookup_lt_is_Some_2 x i Hi) as [xi Ei]. rewrite Ei.
  unfold Rand.ret.
  now rewrite (list_insert_id x i xi Ei), (list_insert_id x i xi Ei).
Qed.

(** Draws that pick at every step the position itself leave the list as
    it is. *)
Lemma shuffle_from_identity rnd i : forall (x : list ascii) pos,
  i < List.length x ->
  (forall k, k < i -> rnd (pos + k) = i - k) ->
  Rand.shuffle_from rnd i x pos = Returns (x, pos + i).
Proof.
  induction i as [| i IH]; intros x pos Hi Hrnd.
  - simpl. unfold Rand.ret. now rewrite Nat.add_0_r.
  - cbn [Rand.shuffle_from]. unfold Rand.bind at 1, Rand.randbelow.
    rewrite <- (Nat.add_0_r pos) at 1. rewrite (Hrnd 0) by lia.
    rewrite Nat.sub_0_r, Nat.mod_small by lia.
    unfold Rand.bind. rewrite swap_same by exact Hi.
    rewrite IH.
    + do 2 f_equal. lia.
    + lia.
    + intros k Hk. replace (S pos + k) with (pos + S k) by lia.
      rewrite Hrnd by lia. lia.
Qed.

Variable all_chars : string.
Variable target : list ascii.

Hypothesis target_in : Forall (fun c => c ∈ chars all_chars) target.
Hypothesis target_ok : no_adjacent_repeat target.

Local Abbreviation rnd := (source_for target all_chars).
Local Abbreviation n := (List.length target).

(** The source draws the characters of the target in turn, and none of
    them is rejected. *)
Lemma fill_follows_target m : forall k,
  k + m = n ->
  fill rnd m (Z.of_nat n) all_chars (take k target) k
  = Returns (target, n).
Proof.
  induction m as [| m IH]; intros k Hk; rewrite fill_unfold;
    rewrite length_take.
  - destruct (Z.ltb_spec (Z.of_nat (k `min` n)) (Z.of_nat n)); [lia |].
    rewrite take_ge by lia. unfold Rand.ret. do 2 f_equal. lia.
  - destruct (Z.ltb_spec (Z.of_nat (k `min` n)) (Z.of_nat n)); [| lia].
    destruct (lookup_lt_is_Some_2 target k ltac:(lia)) as [c Hc].
    assert (Hin : c ∈ chars all_chars).
    { rewrite Forall_forall in target_in. apply target_in.
      eapply list_elem_of_lookup_2. exact Hc. }
    destruct (index_of_lookup c _ Hin) as [Hidx Hlt].
    rewrite length_chars in Hlt.
    assert (Hne : String.length all_chars <> 0) by lia.
    destruct (fill_body_returns rnd all_chars Hne (take k target) k)
      as (c' & Hc' & Eb).
    assert (c' = c) as ->.
    { unfold source_for in Hc'.
      destruct (Nat.ltb_spec k n); [| lia].
      rewrite (nth_lookup_Some _ _ _ _ Hc) in Hc'.
      rewrite Nat.mod_small in Hc' by exact Hlt. congruence. }
    assert (Ha : accepts (take k target) c = true).
    { apply accepts_last. rewrite last_lookup, length_take.
      destruct k as [| k]; [discriminate |].
      replace (Init.Nat.pred (S k `min` n)) with k by lia.
      rewrite lookup_take_lt by lia.
      intros Hprev. exact (target_ok k c c Hprev Hc eq_refl). }
    rewrite Ha in Eb. unfold Rand.bind. rewrite Eb.
    rewrite <- (take_S_r _ _ _ Hc). apply IH. lia.
Qed.

End Reachable.

(** X22. Without [require_each], every non-empty string over the combined
    alphabet of the selected classes that has no two equal adjacent
    characters is a possible result: some random source makes the call
    return exactly this string. *)
Theorem generate_random_password_reaches
  use_lower use_upper use_digits use_special (target : list ascii) :
  target <> [] ->
  Forall
    (fun c => c ∈ chars (alphabet use_lower use_upper use_digits use_special))
    target ->
  no_adjacent_repeat target ->
  generate_random_password
    (source_for target (alphabet use_lower use_upper use_digits use_special))
    (List.length target) (Z.of_nat (List.length target))
    use_lower use_upper use_digits use_special false 0
  = Returns (string_of_list_ascii target, 2 * List.length target - 1).
Proof.
  intros Hne Hin Hadj.
  assert (Hlen : 1 <= List.length target).
  { destruct target; [congruence | simpl; lia]. }
  assert (Ha : assemble
                 (source_for target
                    (alphabet use_lower use_upper use_digits use_special))
                 (List.length target) (Z.of_nat (List.length target))
                 use_lower use_upper use_digits use_special false 0
               = Returns (target, List.length target)).
  { unfold assemble.
    destruct (Z.ltb_spec (Z.of_nat (List.length target)) 1); [lia |].
    destruct (selected_pools use_lower use_upper use_digits use_special)
      as [| p ps] eqn:Ep.
    { exfalso. destruct target as [| c t]; [congruence |].
      apply Forall_cons in Hin as [Hc _].
      unfold alphabet in Hc. rewrite Ep in Hc. now apply elem_of_nil in Hc. }
    cbn [andb]. rewrite <- Ep. unfold Rand.bind, Rand.ret.
    exact (fill_follows_target _ target Hin Hadj (List.length target) 0
             eq_refl). }
  unfold generate_random_password, Rand.bind. rewrite Ha.
  unfold Rand.shuffle. rewrite shuffle_from_identity.
  - unfold Rand.ret. do 2 f_equal. lia.
  - lia.
  - intros k Hk. unfold source_for.
    destruct (Nat.ltb_spec (List.length target + k) (List.length target));
      lia.
Qed.

Lemma generate_random_password_reaches_witness :
  generate_random_password
    (source_for (chars "p4s5") (alphabet true false true false))
    4 4 true false true false false 0
  = Returns ("p4s5", 7).
Proof.
  apply (generate_random_password_reaches true false true false
           (chars "p4s5")).
  - discriminate.
  - apply Forall_forall. intros c Hc.
    apply list_elem_of_In in Hc. simpl in Hc.
    repeat (destruct Hc as [<- | Hc];
            [apply existsb_eqb_elem; reflexivity |]).
    contradiction.
  - apply no_adjacent_repeatb_sound. reflexivity.
Defined.

(** X23. A password of length 1 without [require_each]: as soon as a class
    is selected the call returns whatever the random source draws, after
    one round of the loop and one draw; the result is the drawn character
    of the alphabet. *)
Theorem generate_random_password_single
  rnd fuel use_lower use_upper use_digits use_special pos :
  use_lower || use_upper || use_digits || use_special = true ->
  exists c,
    drawn rnd (alphabet use_lower use_upper use_digits use_special) pos
      = Some c /\
    generate_random_password rnd (S fuel) 1 use_lower use_upper use_digits
      use_special false pos = Returns (String c "", S pos).
Proof.
  intros Hsel.
  assert (Hne : String.length
                  (alphabet use_lower use_upper use_digits use_special)
                <> 0).
  { apply all_chars_nonempty. intros Hnil.
    apply selected_pools_nil in Hnil. congruence. }
  destruct (fill_body_returns rnd _ Hne [] pos) as (c & Hc & Eb).
  exists c. split; [exact Hc |].
  unfold generate_random_password, assemble.
  change (1 <? 1)%Z with false. cbv iota.
  destruct (selected_pools use_lower use_upper use_digits use_special)
    as [| p ps] eqn:Ep.
  { apply selected_pools_nil in Ep. congruence. }
  cbn [andb]. rewrite <- Ep.
  change (String.concat ""
            (selected_pools use_lower use_upper use_digits use_special))
    with (alphabet use_lower use_upper use_digits use_special).
  unfold Rand.bind at 1 2. unfold Rand.ret at 1.
  rewrite fill_unfold.
  change (Z.of_nat (List.length (@nil ascii)) <? 1)%Z with true.
  cbv iota beta. unfold Rand.bind. rewrite Eb. cbn [accepts last app].
  rewrite fill_unfold. reflexivity.
Qed.

Lemma generate_random_password_single_witness :
  exists c,
    drawn (fun _ => 7) (alphabet true false false false) 3 = Some c /\
    generate_random_password (fun _ => 7) 1 1 true false false false false 3
    = Returns (String c "", 4).
Proof.
  apply (generate_random_password_single (fun _ => 7) 0
           true false false false 3).
  reflexivity.
Defined.

(** * The entropy on binary64 floats *)

(** ** Division of an integer by itself *)

Section Binary64.

Lemma digits2_pos_iter_xO p k :
  digits2_pos (Pos.iter xO p k) = (digits2_pos p + k)%positive.
Proof.
  induction k as [| k IH] using Pos.peano_ind.
  - simpl. now rewrite Pos.add_1_r.
  - rewrite Pos.iter_succ. simpl. rewrite IH. lia.
Qed.

Lemma digits2_pos_lower p :
  (2 ^ (Z.pos (digits2_pos p) - 1) <= Z.pos p)%Z.
Proof.
  induction p as [p IH | p IH |]; simpl digits2_pos;
    try (rewrite Pos2Z.inj_succ;
         replace (Z.succ (Z.pos (digits2_pos p)) - 1)%Z
           with (Z.succ (Z.pos (digits2_pos p) - 1))%Z by lia;
         rewrite Z.pow_succ_r by lia; lia).
  simpl. lia.
Qed.

Lemma digits2_pos_small p :
  (Z.pos p < 2 ^ 53)%Z -> (Z.pos (digits2_pos p) <= 53)%Z.
Proof.
  intros H.
  destruct (Z.le_gt_cases (Z.pos (digits2_pos p)) 53) as [Hle | Hgt];
    [exact Hle |].
  pose proof (digits2_pos_lower p).
  assert (2 ^ 53 <= 2 ^ (Z.pos (digits2_pos p) - 1))%Z
    by (apply Z.pow_le_mono_r; lia).
  lia.
Qed.

(** A mantissa that already has its canonical exponent is not rounded. *)
Lemma binary_round_aux_canonical s m e :
  fexp prec emax (Z.pos (digits2_pos m) + e) = e ->
  (e <= emax - prec)%Z ->
  binary_round_aux prec emax s (Z.pos m) e loc_Exact = S754_finite s m e.
Proof.
  intros Hc He. unfold binary_round_aux, shr_fexp.
  cbn [Zdigits2 shr_record_of_loc].
  rewrite Hc, Z.sub_diag.
  cbn [shr shr_m loc_of_shr_record round_nearest_even Zdigits2
       shr_record_of_loc].
  rewrite Hc, Z.sub_diag. cbn [shr shr_m].
  apply Z.leb_le in He. now rewrite He.
Qed.

Lemma binary_normalize_small p :
  (Z.pos p < 2 ^ 53)%Z ->
  exists m e,
    binary_normalize prec emax (Z.pos p) 0 false = S754_finite false m e.
Proof.
  intros Hp. pose proof (digits2_pos_small p Hp) as Hd.
  unfold binary_normalize, binary_round, shl_align.
  assert (Hf : fexp prec emax (Z.pos (digits2_pos p) + 0)
               = (Z.pos (digits2_pos p) - 53)%Z).
  { unfold fexp, emin, prec, emax. lia. }
  rewrite Hf.
  destruct (Z.pos (digits2_pos p) - 53 - 0)%Z as [| k | k] eqn:Ek; [| lia |].
  - eexists _, _. apply binary_round_aux_canonical.
    + unfold fexp, emin, prec, emax. lia.
    + unfold prec, emax. lia.
  - eexists _, _. apply binary_round_aux_canonical.
    + rewrite digits2_pos_iter_xO. unfold fexp, emin, prec, emax. lia.
    + unfold prec, emax. lia.
Qed.

(** A positive integer below 2^53 converts to a finite, non-zero float. *)
Lemma float_of_int_finite n :
  (0 < n < 2 ^ 53)%Z ->
  exists m e, Prim2SF (float_of_int n) = S754_finite false m e.
Proof.
  intros Hn. unfold float_of_int.
  rewrite of_uint63_spec, Uint63.of_Z_spec.
  rewrite Z.mod_small.
  - destruct n as [| p | p]; try lia. apply binary_normalize_small. lia.
  - change wB with 9223372036854775808%Z.
    change (2 ^ 53)%Z with 9007199254740992%Z in Hn. lia.
Qed.

(** A finite, non-zero float divided by itself is [1.0]. *)
Lemma div_self x s m e :
  Prim2SF x = S754_finite s m e -> (x / x)%float = 1%float.
Proof.
  intros H. apply Prim2SF_inj. rewrite FloatAxioms.div_spec, H.
  unfold SF64div, SFdiv, SFdiv_core_binary. cbn [Zdigits2].
  rewrite !Z.sub_diag.
  change (Z.min (fexp prec emax 0) 0) with (-53)%Z.
  change (0 - -53)%Z with 53%Z. cbv iota.
  rewrite Z.shiftl_mul_pow2 by lia.
  assert (Hq : (Z.pos m * 2 ^ 53 / Z.pos m = 2 ^ 53)%Z)
    by (rewrite Z.mul_comm; apply Z.div_mul; lia).
  assert (Hr : ((Z.pos m * 2 ^ 53) mod Z.pos m = 0)%Z)
    by (rewrite Z.mul_comm; apply Z.mod_mul; lia).
  unfold Z.div, Z.modulo in Hq, Hr.
  destruct (Z.div_eucl (Z.pos m * 2 ^ 53) (Z.pos m)) as [q r].
  subst q r.
  unfold new_location, new_location_even, new_location_odd.
  destruct (Z.even (Z.pos m)); destruct s; vm_compute; reflexivity.
Qed.

Lemma binary64_true_div_self n :
  (0 < n < 2 ^ 53)%Z -> binary64_true_div n n = 1%float.
Proof.
  intros Hn. destruct (float_of_int_finite n Hn) as (m & e & H).
  exact (div_self _ _ _ _ H).
Qed.

End Binary64.

(** ** The loop computes the formula of the specification *)

Section Refinement.

Lemma first_occurrences_keys (l : list ascii) : forall freq,
  (fold_left
     (fun freq char => dict_set freq char (dict_get freq char 0 + 1)%Z)
     l freq).*1
  = fold_left
      (fun seen c => if bool_decide (c ∈ seen) then seen else seen ++ [c])
      l freq.*1.
Proof.
  induction l as [| c l IH]; intros freq; [reflexivity |].
  cbn [fold_left]. now rewrite IH, dict_set_keys.
Qed.

Lemma dict_get_entry (freq : list (ascii * Z)) k v d :
  NoDup freq.*1 -> (k, v) ∈ freq -> dict_get freq k d = v.
Proof.
  induction freq as [| [k' v'] freq IH]; intros Hnd Hin;
    [now apply elem_of_nil in Hin |].
  cbn [fmap list_fmap fst] in Hnd. apply NoDup_cons in Hnd as [Hk Hnd].
  cbn [dict_get]. apply elem_of_cons in Hin as [[= -> ->] | Hin].
  - now rewrite Ascii.eqb_refl.
  - destruct (Ascii.eqb_spec k k') as [-> | _]; [| now apply IH].
    destruct Hk. apply list_elem_of_fmap. now exists (k', v).
Qed.

(** The table pairs every distinct character, in the order of first
    occurrence, with the number of times it occurs. *)
Lemma count_chars_first_occurrences password :
  count_chars password
  = map (fun c => (c, Z.of_nat (occurrences c password)))
      (first_occurrences (chars password)).
Proof.
  destruct (fold_step_invariants (chars password) [])
    as (Hnd & _ & _ & _); [constructor | constructor |].
  fold (count_chars password) in Hnd.
  assert (Hk : (count_chars password).*1
               = first_occurrences (chars password)).
  { unfold count_chars, first_occurrences.
    now rewrite first_occurrences_keys. }
  rewrite <- Hk.
  assert (Hv : Forall (fun kv => kv.2 = Z.of_nat (occurrences kv.1 password))
                 (count_chars password)).
  { apply Forall_forall. intros [k v] Hin. simpl.
    rewrite <- (dict_get_entry _ k v 0%Z Hnd Hin).
    apply count_chars_get. }
  clear Hk Hnd. induction Hv as [| [k v] freq Hkv _ IH]; [reflexivity |].
  simpl in Hkv. subst v. cbn [fmap list_fmap map fst]. now rewrite <- IH.
Qed.

Lemma calculate_entropy_shannon_sum float zero true_div mul sub log2
  password :
  calculate_entropy float zero true_div mul sub log2 password
  = shannon_sum float zero true_div mul sub log2 password.
Proof.
  unfold calculate_entropy, shannon_sum.
  destruct password as [| c0 s0] eqn:Ep; [reflexivity |]. rewrite <- Ep.
  rewrite count_chars_first_occurrences.
  generalize (first_occurrences (chars password)) zero.
  induction l as [| c l IH]; intros e; [reflexivity |].
  cbn [map fold_left]. now rewrite IH.
Qed.

Lemma calculate_entropy_distinct_iter float zero true_div mul sub log2
  password :
  password <> "" -> NoDup (chars password) ->
  calculate_entropy float zero true_div mul sub log2 password
  = Nat.iter (String.length password)
      (fun e =>
         sub e (mul (true_div 1%Z (Z.of_nat (String.length password)))
                    (log2
                       (true_div 1%Z (Z.of_nat (String.length password))))))
      zero.
Proof.
  intros Hne Hnd. unfold calculate_entropy.
  destruct password as [| c0 s0] eqn:Ep; [congruence |]. rewrite <- Ep in *.
  rewrite (count_chars_distinct password Hnd), entropy_fold_distinct.
  now rewrite length_chars.
Qed.

End Refinement.

(** ** The statement of the specification *)

(** C6, as stated: for a string of [N] pairwise distinct characters
    [calculate_entropy] returns [log2(N)]. On floats it does not. For the
    14 characters [abcdefghijklmn] the result differs from [math.log2(14)]
    whatever [math.log2] returns at 14 and at 1/14 within two units in the
    last place of the correctly rounded values; for the 11 characters
    [abcdefghijk] it differs from [math.log2(11)] at the correctly rounded
    values. *)
Lemma entropy_of_distinct_characters_is_not_log2 :
  (NoDup (chars "abcdefghijklmn") /\
   forall log2 : float -> float,
     log2 14%float
       ∈ [0x1.e75767f54042bp+1; 0x1.e75767f54042cp+1; 0x1.e75767f54042dp+1;
          0x1.e75767f54042ep+1; 0x1.e75767f54042fp+1]%float ->
     log2 (1 / 14)%float
       ∈ [-0x1.e75767f54042bp+1; -0x1.e75767f54042cp+1;
          -0x1.e75767f54042dp+1; -0x1.e75767f54042ep+1;
          -0x1.e75767f54042fp+1]%float ->
     PrimFloat.eqb (binary64_entropy log2 "abcdefghijklmn") (log2 14%float)
     = false) /\
  (NoDup (chars "abcdefghijk") /\
   forall log2 : float -> float,
     log2 11%float = 0x1.bacea7c065d42p+1%float ->
     log2 (1 / 11)%float = (-0x1.bacea7c065d42p+1)%float ->
     PrimFloat.eqb (binary64_entropy log2 "abcdefghijk") (log2 11%float)
     = false).
Proof.
  split; (split; [apply nodupb_sound; reflexivity |]).
  - intros log2. unfold binary64_entropy.
    rewrite calculate_entropy_distinct_iter;
      [| discriminate | apply nodupb_sound; reflexivity].
    change (String.length "abcdefghijklmn") with 14.
    replace (binary64_true_div 1 (Z.of_nat 14)) with (1 / 14)%float
      by (vm_compute; reflexivity).
    generalize (log2 14%float) as v. generalize (log2 (1 / 14)%float) as l.
    intros l v HV HL.
    apply list_elem_of_In in HV. apply list_elem_of_In in HL.
    cbn [In] in HV, HL.
    repeat (destruct HV as [<- | HV]); try contradiction;
      repeat (destruct HL as [<- | HL]); try contradiction;
      vm_compute; reflexivity.
  - intros log2 HV HL. unfold binary64_entropy.
    rewrite calculate_entropy_distinct_iter;
      [| discriminate | apply nodupb_sound; reflexivity].
    change (String.length "abcdefghijk") with 11.
    replace (binary64_true_div 1 (Z.of_nat 11)) with (1 / 11)%float
      by (vm_compute; reflexivity).
    rewrite HL, HV. vm_compute. reflexivity.
Qed.

(** C6, amended. On binary64 floats, with [math.log2(1.0) = 0.0]:
    [calculate_entropy] evaluates the formula of the specification as a
    sum taken term by term, in the order in which the characters first
    occur; it returns [0.0] for the empty string and for any string of
    [N < 2^53] identical characters; for [N] pairwise distinct characters
    it returns [0.0] from which [p * log2(p)], [p = 1 / N], has been
    subtracted [N] times, which is [log2(N)] in exact arithmetic. *)
Theorem binary64_entropy_spec (log2 : float -> float) :
  log2 1%float = 0%float ->
  (forall password,
     binary64_entropy log2 password
     = shannon_sum float 0%float binary64_true_div PrimFloat.mul
         PrimFloat.sub log2 password) /\
  binary64_entropy log2 "" = 0%float /\
  (forall password c n,
     chars password = replicate (S n) c ->
     (Z.of_nat (S n) < 2 ^ 53)%Z ->
     binary64_entropy log2 password = 0%float) /\
  (forall password,
     password <> "" -> NoDup (chars password) ->
     binary64_entropy log2 password
     = Nat.iter (String.length password)
         (fun e =>
            (e - binary64_true_div 1 (Z.of_nat (String.length password))
                 * log2
                     (binary64_true_div 1
                        (Z.of_nat (String.length password))))%float)
         0%float /\
     exact_entropy password = Rlog 2 (INR (String.length password))).
Proof.
  intros Hlog. split; [| split; [| split]].
  - intros password. apply calculate_entropy_shannon_sum.
  - reflexivity.
  - intros password c n Hrep Hn. unfold binary64_entropy.
    rewrite (calculate_entropy_repeated _ _ _ _ _ _ password c n Hrep).
    rewrite binary64_true_div_self by lia.
    rewrite Hlog. vm_compute. reflexivity.
  - intros password Hne Hnd. split.
    + unfold binary64_entropy.
      now rewrite calculate_entropy_distinct_iter.
    + now apply exact_entropy_distinct.
Qed.

Lemma binary64_entropy_spec_witness :
  binary64_entropy (fun x => (x - 1)%float) "aaaa" = 0%float.
Proof.
  refine (proj1 (proj2 (proj2
            (binary64_entropy_spec (fun x => (x - 1)%float) _)))
            "aaaa" "a"%char 3 _ _).
  - vm_compute. reflexivity.
  - reflexivity.
  - vm_compute. reflexivity.
Defined.
